(** * gui/esp32cam.py: the ESP32-CAM client, its acquisition worker and the
      parameter-setting request thread.

    The Python module is embedded function by function.  Qt signals emitted
    by a thread and the calls a thread makes on its collaborators (the cv2
    capture, the detector objects, [requests.get], [msleep], [print]) are
    recorded, in program order, in an event trace.  Everything the thread
    cannot decide by itself (the clock, the capture, the other threads that
    write its flags) is supplied by an explicit environment, one record per
    loop iteration.

    A frame is an [np.ndarray], which Python hands to the detectors by
    reference.  A frame of the model is the pixels of an array, and a
    detector method is given by what it leaves in the array it is handed
    and by what it returns, so that drawing into the argument is told apart
    from returning another array.

    Python's [float] is Rocq's primitive [float]: both are IEEE 754 binary64
    with round-to-nearest-even, and [<], [>=], [-] and [/] on them are
    [<?], [<=?], [-] and [/] of [PrimFloat]. *)

From Stdlib Require Import List Bool String Ascii ZArith Lia Floats.
From Stdlib Require Import DecimalString.
Import ListNotations.

Local Open Scope string_scope.
Local Open Scope list_scope.

(** ** ParameterSetterThread *)

Module ParameterSetter.

(** What [requests.get(url, params=..., timeout=...)] does when called: it
    returns a response, or raises a [requests.RequestException], or raises
    another [Exception]. *)
Inductive GetOutcome :=
| Response (status_code : Z)
| RaiseRequestException
| RaiseException.

Inductive Event :=
| finished (ok : bool)                 (* self.finished.emit(ok) *)
| requests_get (url : string)          (* the blocking call *)
| print (msg : string).

Record ParameterSetterThread := {
  host : string;
  params : list (string * string);
  timeout : float;
  _interrupted : bool
}.

(** [__init__(host, params, timeout=3.0)]; [params or {}] with [None] as
    the empty mapping. *)
Definition init (h : string) (p : option (list (string * string)))
           (t : float) : ParameterSetterThread :=
  {| host := h;
     params := match p with Some d => d | None => [] end;
     timeout := t;
     _interrupted := false |}.

Definition requestInterruption (t : ParameterSetterThread)
  : ParameterSetterThread :=
  {| host := host t; params := params t; timeout := timeout t;
     _interrupted := true |}.

(** The other threads, as seen from [run]: whether [requestInterruption]
    is called before the first test of the flag, whether it is called
    while [requests.get] blocks, and what [requests.get] does. *)
Record Env := {
  interrupt_before : bool;
  get_outcome : GetOutcome;
  interrupt_during : bool
}.

Definition interrupt_if (b : bool) (t : ParameterSetterThread) :=
  if b then requestInterruption t else t.

Definition is_empty (s : string) : bool :=
  match s with EmptyString => true | _ => false end.

(** [run]; every path leaves through [finally: return]. *)
Definition run (t : ParameterSetterThread) (e : Env)
  : ParameterSetterThread * list Event :=
  if is_empty (host t) then (t, [finished false])
  else
    let url := ("http://" ++ host t ++ "/set")%string in
    let t1 := interrupt_if (interrupt_before e) t in
    if _interrupted t1 then (t1, [finished false])
    else
      let t2 := interrupt_if (interrupt_during e) t1 in
      match get_outcome e with
      | Response code =>
          if _interrupted t2 then (t2, [requests_get url; finished false])
          else (t2, [requests_get url; finished (code =? 200)%Z])
      | RaiseRequestException =>
          (t2, [requests_get url;
                print "[esp32cam.set_params] request failed:";
                finished false])
      | RaiseException =>
          (t2, [requests_get url;
                print "[esp32cam.set_params] unexpected:";
                finished false])
      end.

(** The outcomes reported by a run. *)
Fixpoint outcomes (tr : list Event) : list bool :=
  match tr with
  | [] => []
  | finished b :: tr' => b :: outcomes tr'
  | _ :: tr' => outcomes tr'
  end.

Definition raises (o : GetOutcome) : bool :=
  match o with Response _ => false | _ => true end.

(** The URLs of the requests made by a run. *)
Fixpoint requests (tr : list Event) : list string :=
  match tr with
  | [] => []
  | requests_get url :: tr' => url :: requests tr'
  | _ :: tr' => requests tr'
  end.

End ParameterSetter.

(** ** extract_host_from_stream_url *)

Module Url.

(** [s] with the prefix [p] taken off, when [s] starts with [p]. *)
Fixpoint strip_prefix (p s : string) : option string :=
  match p with
  | EmptyString => Some s
  | String a p' =>
      match s with
      | EmptyString => None
      | String b s' => if Ascii.eqb a b then strip_prefix p' s' else None
      end
  end.

(** [s.split(sep, 1)] for a separator that is not empty: the text before
    the first occurrence of [sep] and, when [sep] occurs, the text after
    it. *)
Fixpoint split_once (sep s : string) : string * option string :=
  match strip_prefix sep s with
  | Some rest => (EmptyString, Some rest)
  | None =>
      match s with
      | EmptyString => (EmptyString, None)
      | String c s' =>
          let (before, after) := split_once sep s' in (String c before, after)
      end
  end.

(** [parts[0]] and [parts[-1]] of the list [split_once] stands for. *)
Definition first_part (parts : string * option string) : string := fst parts.

Definition last_part (parts : string * option string) : string :=
  match snd parts with
  | Some after => after
  | None => fst parts
  end.

Definition extract_host_from_stream_url (url : string) : string :=
  match url with
  | EmptyString => EmptyString
  | _ =>
      let hostpart := last_part (split_once "://" url) in
      let hostpart := first_part (split_once "/" hostpart) in
      let host := first_part (split_once ":" hostpart) in
      host
  end.

(** The character [c] occurs in [s]. *)
Fixpoint occurs (c : ascii) (s : string) : bool :=
  match s with
  | EmptyString => false
  | String b s' => Ascii.eqb c b || occurs c s'
  end.

(** The text after the host in a URL: nothing, a port, or a path. *)
Definition host_ends (rest : string) : Prop :=
  rest = EmptyString
  \/ (exists r, rest = String ":" r) \/ (exists r, rest = String "/" r).

End Url.

(** ** ESP32CamClient and CameraWorker *)

Module Camera.

(** [cv2.VideoCapture]: the only thing the module asks of it besides
    [read] and [release] is [isOpened]. *)
Record VideoCapture := { isOpened : bool }.

(** What a detector factory does when called: it raises, or it returns an
    object ([None] when it returns Python's [None]). *)
Inductive Built (S : Type) :=
| Raises
| Returns (obj : option S).
Arguments Raises {S}.
Arguments Returns {S} obj.

(** Which way an iteration of the worker's loop went: the first [continue]
    (too early for the next frame), the second [continue] (no frame read),
    or through to the three [emit]s at the bottom. *)
Inductive Kind := Paced | ReadFailed | Published.

(** The [float] of a Python [int]: the nearest binary64, ties to even.
    (Python raises OverflowError from 2^1024 on, where this is infinite; a
    frame counter does not get there.) *)
Definition float_of_int (n : Z) : float :=
  SF2Prim (binary_normalize prec emax n 0 false).

(** A binary64 value that is a number, and not an infinite one. *)
Definition SFfinite (x : spec_float) : Prop :=
  match x with
  | S754_zero _ | S754_finite _ _ _ => True
  | _ => False
  end.

(** [str(int(cid))] *)
Definition str_int (z : Z) : string := NilZero.string_of_int (Z.to_int z).

Section Worker.

Variable Frame : Type.             (* np.ndarray, an opaque pixel buffer *)
Variable Conf : Type.              (* a detection confidence *)
Variable Box : Type.               (* a bounding box or QR polygon *)
Variable World : Type.             (* what a factory call depends on *)
Variable fmt_2f : Conf -> string.  (* f"{conf:.2f}" *)

Inductive Event :=
| opened (ok : bool) (msg : string)
| frameReady (frame : Frame)
| fpsReady (fps : float)
| hazmatDet (texts : list string)
| qrDet (texts : list string)
| msleep (ms : Z)
| cap_read                                   (* self._cap.read() *)
| cap_release                                (* self._cap.release() *)
| call_hazmat_factory
| call_qr_factory
| call_hazmat_detect (frame : Frame)
| call_hazmat_annotate (frame : Frame)
| call_qr_detect (frame : Frame)
| call_qr_annotate (frame : Frame)
| print (msg : string).

(** *** ESP32CamClient *)

Record ESP32CamClient := {
  stream_url : string;
  timeout : float;
  _cap : option VideoCapture
}.

Definition client_init (url : string) : ESP32CamClient :=
  {| stream_url := url; timeout := 3%float; _cap := None |}.

(** [open]: [opens] tells whether the capture cv2 creates for the URL is
    opened.  The capture object is kept in [_cap] either way. *)
Definition open (c : ESP32CamClient) (opens : bool) : ESP32CamClient * bool :=
  let cap := {| isOpened := opens |} in
  ({| stream_url := stream_url c; timeout := timeout c; _cap := Some cap |},
   isOpened cap).

(** [read]: [r] is what [self._cap.read()] returns if it is called. *)
Definition read (c : ESP32CamClient) (r : bool * option Frame)
  : (bool * option Frame) * list Event :=
  match _cap c with
  | None => ((false, None), [])
  | Some _ =>
      let (ok, frame) := r in
      if ok then ((true, frame), [cap_read]) else ((false, None), [cap_read])
  end.

Definition close (c : ESP32CamClient) : ESP32CamClient * list Event :=
  match _cap c with
  | Some _ =>
      ({| stream_url := stream_url c; timeout := timeout c; _cap := None |},
       [cap_release])
  | None => (c, [])
  end.

(** *** Detector objects *)

(** A hazmat detector, an object outside this module.  The frame is an
    [np.ndarray], handed to [detect] and [annotate] by reference: a call
    may write into the array it is given, whether it returns or raises.
    So each method gives, for the pixels of the array handed to it, the
    pixels that array holds when the call is over, and what the call
    returns, [None] when it raises an [Exception].  The array [annotate]
    returns may be the one it was given or another one; the loop goes on
    with the one returned.  [hazmat_labels] is [Some] when the object has
    the attribute [labels].  A detector object counts as true in
    [if enable_haz and self.hazmat]. *)
Record HazmatStage := {
  hazmat_detect : Frame -> Frame * option (list Z * list Conf * list Box);
  hazmat_annotate :
    Frame -> list Z -> list Conf -> list Box -> Frame * option Frame;
  hazmat_labels : option (list string)
}.

Record QrStage := {
  qr_detect : Frame -> Frame * option (list (string * Box));
  qr_annotate : Frame -> list (string * Box) -> Frame * option Frame
}.

Definition text_of (name : string) (conf : Conf) : string :=
  (name ++ " (" ++ fmt_2f conf ++ ")")%string.

(** The comprehension over [zip(cids, confs)] guarded by
    [0 <= cid < len(labels)]. *)
Fixpoint label_texts (labels : list string) (cids : list Z)
         (confs : list Conf) : list string :=
  match cids, confs with
  | cid :: cids', conf :: confs' =>
      if ((0 <=? cid) && (cid <? Z.of_nat (List.length labels)))%Z
      then text_of (nth (Z.to_nat cid) labels "") conf
           :: label_texts labels cids' confs'
      else label_texts labels cids' confs'
  | _, _ => []
  end.

(** The comprehension over [enumerate(cids)] from index [i] on; [confs[i]]
    raises IndexError past the end of [confs]. *)
Fixpoint id_texts (i : nat) (cids : list Z) (confs : list Conf)
  : option (list string) :=
  match cids with
  | [] => Some []
  | cid :: cids' =>
      match nth_error confs i with
      | None => None
      | Some conf =>
          match id_texts (S i) cids' confs with
          | None => None
          | Some texts => Some (text_of ("id" ++ str_int cid) conf :: texts)
          end
      end
  end.

Definition hazmat_texts (h : HazmatStage) (cids : list Z) (confs : list Conf)
  : option (list string) :=
  match hazmat_labels h with
  | Some labels => Some (label_texts labels cids confs)
  | None => id_texts 0 cids confs
  end.

(** The [try] block of the hazmat stage on the frame in flight: the
    pixels of the array the local [frame] names afterwards, and the texts
    left in [haz_texts].  When [detect] or [annotate] raises, [frame] still
    names the array that was handed over, with whatever the call wrote
    into it; when [annotate] returns, [frame] names the array returned.
    [frame1] is the array as [detect] leaves it, which is what [annotate]
    is handed. *)
Definition run_hazmat (h : HazmatStage) (frame : Frame)
  : Frame * list string * list Event :=
  let '(frame1, detected) := hazmat_detect h frame in
  match detected with
  | None =>
      (frame1, [], [call_hazmat_detect frame; print "[hazmat] run error:"])
  | Some (cids, confs, boxes) =>
      let '(frame2, annotated) := hazmat_annotate h frame1 cids confs boxes in
      match annotated with
      | None =>
          (frame2, [],
           [call_hazmat_detect frame; call_hazmat_annotate frame1;
            print "[hazmat] run error:"])
      | Some frame' =>
          match hazmat_texts h cids confs with
          | Some texts =>
              (frame', texts,
               [call_hazmat_detect frame; call_hazmat_annotate frame1])
          | None =>
              (frame', [],
               [call_hazmat_detect frame; call_hazmat_annotate frame1;
                print "[hazmat] run error:"])
          end
      end
  end.

Definition nonempty (s : string) : bool :=
  match s with EmptyString => false | _ => true end.

(** The [try] block of the QR stage. *)
Definition run_qr (q : QrStage) (frame : Frame)
  : Frame * list string * list Event :=
  let '(frame1, detected) := qr_detect q frame in
  match detected with
  | None => (frame1, [], [call_qr_detect frame; print "[qr] run error:"])
  | Some qr_res =>
      let '(frame2, annotated) := qr_annotate q frame1 qr_res in
      match annotated with
      | None =>
          (frame2, [],
           [call_qr_detect frame; call_qr_annotate frame1;
            print "[qr] run error:"])
      | Some frame' =>
          (frame', filter nonempty (map fst qr_res),
           [call_qr_detect frame; call_qr_annotate frame1])
      end
  end.

(** *** CameraWorker *)

Record CameraWorker := {
  client : ESP32CamClient;
  _running : bool;
  target_fps : float;
  min_frame_interval : float;
  hazmat_factory : option (World -> Built HazmatStage);
  qr_factory : option (World -> Built QrStage);
  _enable_hazmat : bool;
  _enable_qr : bool;
  hazmat : option HazmatStage;
  qr : option QrStage
}.

(** The object [__init__] builds when [1.0 / target_fps] is defined. *)
Definition constructed (url : string)
           (hazmat_factory : option (World -> Built HazmatStage))
           (qr_factory : option (World -> Built QrStage))
           (target_fps : float) : CameraWorker :=
  {| client := client_init url;
     _running := false;
     target_fps := target_fps;
     min_frame_interval := (1 / target_fps)%float;
     hazmat_factory := hazmat_factory;
     qr_factory := qr_factory;
     _enable_hazmat := false;
     _enable_qr := false;
     hazmat := None;
     qr := None |}.

(** [__init__]; [1.0 / target_fps] raises ZeroDivisionError at rate 0, and
    no worker is constructed. *)
Definition init (url : string)
           (hazmat_factory : option (World -> Built HazmatStage))
           (qr_factory : option (World -> Built QrStage))
           (target_fps : float) : option CameraWorker :=
  if (target_fps =? 0)%float then None
  else Some (constructed url hazmat_factory qr_factory target_fps).

Definition set_client (w : CameraWorker) (c : ESP32CamClient) :=
  {| client := c; _running := _running w; target_fps := target_fps w;
     min_frame_interval := min_frame_interval w;
     hazmat_factory := hazmat_factory w; qr_factory := qr_factory w;
     _enable_hazmat := _enable_hazmat w; _enable_qr := _enable_qr w;
     hazmat := hazmat w; qr := qr w |}.

Definition set_running (w : CameraWorker) (b : bool) :=
  {| client := client w; _running := b; target_fps := target_fps w;
     min_frame_interval := min_frame_interval w;
     hazmat_factory := hazmat_factory w; qr_factory := qr_factory w;
     _enable_hazmat := _enable_hazmat w; _enable_qr := _enable_qr w;
     hazmat := hazmat w; qr := qr w |}.

(** The [enable_hazmat] and [enable_qr] setters (under the mutex). *)
Definition set_enable_hazmat (w : CameraWorker) (b : bool) :=
  {| client := client w; _running := _running w; target_fps := target_fps w;
     min_frame_interval := min_frame_interval w;
     hazmat_factory := hazmat_factory w; qr_factory := qr_factory w;
     _enable_hazmat := b; _enable_qr := _enable_qr w;
     hazmat := hazmat w; qr := qr w |}.

Definition set_enable_qr (w : CameraWorker) (b : bool) :=
  {| client := client w; _running := _running w; target_fps := target_fps w;
     min_frame_interval := min_frame_interval w;
     hazmat_factory := hazmat_factory w; qr_factory := qr_factory w;
     _enable_hazmat := _enable_hazmat w; _enable_qr := b;
     hazmat := hazmat w; qr := qr w |}.

Definition set_hazmat (w : CameraWorker) (h : option HazmatStage) :=
  {| client := client w; _running := _running w; target_fps := target_fps w;
     min_frame_interval := min_frame_interval w;
     hazmat_factory := hazmat_factory w; qr_factory := qr_factory w;
     _enable_hazmat := _enable_hazmat w; _enable_qr := _enable_qr w;
     hazmat := h; qr := qr w |}.

Definition set_qr (w : CameraWorker) (q : option QrStage) :=
  {| client := client w; _running := _running w; target_fps := target_fps w;
     min_frame_interval := min_frame_interval w;
     hazmat_factory := hazmat_factory w; qr_factory := qr_factory w;
     _enable_hazmat := _enable_hazmat w; _enable_qr := _enable_qr w;
     hazmat := hazmat w; qr := q |}.

(** The local variables of [run] that live across iterations. *)
Record Locals := {
  last_frame_time : float;
  last_fps_time : float;
  frame_count : Z;
  fps_avg : float
}.

(** What the rest of the program does to one iteration of the loop: the
    Consumer's [stop()] and its writes to the two flags before the loop
    reads them, the clock, the capture and the world the factories see. *)
Record Input := {
  consumer_stop : bool;
  consumer_hazmat : option bool;
  consumer_qr : option bool;
  now : float;
  cap_frame : bool * option Frame;
  world : World
}.

(** [stop()]: the write of [_running].  The [wait(1000)] after it is the
    caller waiting for the thread, and writes nothing. *)
Definition stop (w : CameraWorker) : CameraWorker := set_running w false.

Definition consumer (i : Input) (w : CameraWorker) : CameraWorker :=
  let w := if consumer_stop i then stop w else w in
  let w := match consumer_hazmat i with
           | Some b => set_enable_hazmat w b
           | None => w
           end in
  match consumer_qr i with
  | Some b => set_enable_qr w b
  | None => w
  end.

(** The Consumer's writes of a sequence of iterations, in order. *)
Definition consumers (ins : list Input) (w : CameraWorker) : CameraWorker :=
  fold_left (fun w i => consumer i w) ins w.

(** [if enable_haz and self.hazmat is None and self.hazmat_factory: try ...]
    The result is the worker and the local [enable_haz] afterwards. *)
Definition construct_hazmat (w : CameraWorker) (enable_haz : bool)
           (x : World) : CameraWorker * bool * list Event :=
  if enable_haz then
    match hazmat w, hazmat_factory w with
    | None, Some factory =>
        match factory x with
        | Returns obj => (set_hazmat w obj, enable_haz, [call_hazmat_factory])
        | Raises =>
            (set_enable_hazmat w false, false,
             [call_hazmat_factory; print "[hazmat] init error:"])
        end
    | _, _ => (w, enable_haz, [])
    end
  else (w, enable_haz, []).

Definition construct_qr (w : CameraWorker) (enable_qr : bool)
           (x : World) : CameraWorker * bool * list Event :=
  if enable_qr then
    match qr w, qr_factory w with
    | None, Some factory =>
        match factory x with
        | Returns obj => (set_qr w obj, enable_qr, [call_qr_factory])
        | Raises =>
            (set_enable_qr w false, false,
             [call_qr_factory; print "[qr] init error:"])
        end
    | _, _ => (w, enable_qr, [])
    end
  else (w, enable_qr, []).

(** [if enable_haz and self.hazmat: try ...] *)
Definition hazmat_pass (w : CameraWorker) (enable_haz : bool) (frame : Frame)
  : Frame * list string * list Event :=
  match enable_haz, hazmat w with
  | true, Some h => run_hazmat h frame
  | _, _ => (frame, [], [])
  end.

Definition qr_pass (w : CameraWorker) (enable_qr : bool) (frame : Frame)
  : Frame * list string * list Event :=
  match enable_qr, qr w with
  | true, Some q => run_qr q frame
  | _, _ => (frame, [], [])
  end.

(** [frame_count += 1; last_frame_time = current_time] *)
Definition accept (l : Locals) (current_time : float) : Locals :=
  {| last_frame_time := current_time; last_fps_time := last_fps_time l;
     frame_count := frame_count l + 1; fps_avg := fps_avg l |}.

(** [if current_time - last_fps_time >= 1.0: ...] *)
Definition throughput (l : Locals) (current_time : float)
  : Locals * list Event :=
  if (1 <=? current_time - last_fps_time l)%float then
    let fps_avg :=
      (float_of_int (frame_count l) / (current_time - last_fps_time l))%float
    in
    ({| last_frame_time := last_frame_time l; last_fps_time := current_time;
        frame_count := 0; fps_avg := fps_avg |}, [fpsReady fps_avg])
  else (l, []).

(** The frame, the texts and the calls of the four stage blocks, from the
    snapshot of the flags on. *)
Definition stages (w : CameraWorker) (x : World) (frame : Frame)
  : CameraWorker * (Frame * list string * list string) * list Event :=
  let enable_haz := _enable_hazmat w in
  let enable_qr := _enable_qr w in
  let '(w1, enable_haz, ev_hc) := construct_hazmat w enable_haz x in
  let '(w2, enable_qr, ev_qc) := construct_qr w1 enable_qr x in
  let '(frame1, haz_texts, ev_h) := hazmat_pass w2 enable_haz frame in
  let '(frame2, qr_texts, ev_q) := qr_pass w2 enable_qr frame1 in
  (w2, (frame2, haz_texts, qr_texts), ev_hc ++ ev_qc ++ ev_h ++ ev_q).

(** The body of [while self._running:]. *)
Definition body (w : CameraWorker) (l : Locals) (i : Input)
  : CameraWorker * Locals * list Event * Kind :=
  let current_time := now i in
  if (current_time - last_frame_time l <? min_frame_interval w)%float
  then (w, l, [msleep 5], Paced)
  else
    let '(ok_frame, ev_read) := read (client w) (cap_frame i) in
    match ok_frame with
    | (true, Some frame) =>
        let l := accept l current_time in
        let '(w', (frame', haz_texts, qr_texts), ev_stages) :=
          stages w (world i) frame in
        let '(l', ev_fps) := throughput l current_time in
        (w', l',
         ev_read ++ ev_stages ++ ev_fps
           ++ [hazmatDet haz_texts; qrDet qr_texts; frameReady frame'],
         Published)
    | _ => (w, l, ev_read ++ [msleep 10], ReadFailed)
    end.

(** One executed iteration: the worker and locals it started from (the
    Consumer's writes included), its input, the way it went, what it
    emitted and called, and the worker and locals it left. *)
Record Step := {
  step_before : CameraWorker;
  step_locals_before : Locals;
  step_input : Input;
  step_kind : Kind;
  step_events : list Event;
  step_worker : CameraWorker;
  step_locals : Locals
}.

(** Where [run] is once the inputs are used up: still in the loop, or
    returned. *)
Inductive Phase :=
| Streaming (w : CameraWorker) (l : Locals)
| Stopped (w : CameraWorker).

(** [while self._running: ...] followed by [self.client.close()], over the
    iterations the inputs describe.  The last component is what the exit
    of the loop calls. *)
Fixpoint loop (w : CameraWorker) (l : Locals) (ins : list Input)
  : list Step * Phase * list Event :=
  match ins with
  | [] => ([], Streaming w l, [])
  | i :: ins' =>
      let w := consumer i w in
      if _running w then
        let '(w', l', ev, k) := body w l i in
        let '(steps, p, ev_close) := loop w' l' ins' in
        ({| step_before := w; step_locals_before := l; step_input := i;
            step_kind := k; step_events := ev;
            step_worker := w'; step_locals := l' |} :: steps, p, ev_close)
      else
        let '(c, ev_close) := close (client w) in
        ([], Stopped (set_client w c), ev_close)
  end.

(** [run]: [opens] is whether the stream opens, [t0] and [t1] the two
    clock readings taken before the loop. *)
Definition run (w : CameraWorker) (opens : bool) (t0 t1 : float)
           (ins : list Input) : list Event * (list Step * Phase * list Event) :=
  let w := set_running w true in
  let '(c, ok) := open (client w) opens in
  let w := set_client w c in
  if negb ok then
    ([opened false ("Could not open stream " ++ stream_url (client w))%string],
     ([], Stopped w, []))
  else
    ([opened true "opened"],
     loop w {| last_frame_time := t0; last_fps_time := t1;
               frame_count := 0; fps_avg := 0%float |} ins).

(** Everything a run emitted and called, in order. *)
Definition trace (r : list Event * (list Step * Phase * list Event))
  : list Event :=
  let '(ev_open, (steps, _, ev_close)) := r in
  ev_open ++ List.concat (map step_events steps) ++ ev_close.

Definition final (r : list Event * (list Step * Phase * list Event)) : Phase :=
  let '(_, (_, p, _)) := r in p.

Definition steps_of (r : list Event * (list Step * Phase * list Event))
  : list Step :=
  let '(_, (steps, _, _)) := r in steps.

(** *** Reading traces *)

(** The notifications of the Streaming loop: frame, findings, throughput. *)
Definition is_publication (e : Event) : bool :=
  match e with
  | frameReady _ | fpsReady _ | hazmatDet _ | qrDet _ => true
  | _ => false
  end.

Definition is_fps (e : Event) : bool :=
  match e with fpsReady _ => true | _ => false end.

(** Calls on the hazmat slot: its factory and the two methods of its
    detector. *)
Definition is_hazmat_factory_call (e : Event) : bool :=
  match e with call_hazmat_factory => true | _ => false end.

Definition is_hazmat_call (e : Event) : bool :=
  match e with
  | call_hazmat_factory | call_hazmat_detect _ | call_hazmat_annotate _ => true
  | _ => false
  end.

Definition is_qr_factory_call (e : Event) : bool :=
  match e with call_qr_factory => true | _ => false end.

Definition is_qr_call (e : Event) : bool :=
  match e with
  | call_qr_factory | call_qr_detect _ | call_qr_annotate _ => true
  | _ => false
  end.

Definition count (p : Event -> bool) (tr : list Event) : nat :=
  List.length (filter p tr).

Definition none (p : Event -> bool) (tr : list Event) : Prop :=
  Forall (fun e => p e = false) tr.

Definition events_of (steps : list Step) : list Event :=
  List.concat (map step_events steps).

Definition is_published (s : Step) : bool :=
  match step_kind s with Published => true | _ => false end.

(** The timestamps the loop stored in [last_frame_time] when it accepted a
    frame, oldest first. *)
Definition accepted_times (steps : list Step) : list float :=
  map (fun s => last_frame_time (step_locals s)) (filter is_published steps).

(** The clock readings of the iterations that emitted [fpsReady]. *)
Definition fps_times (steps : list Step) : list float :=
  map (fun s => now (step_input s))
      (filter (fun s => existsb is_fps (step_events s)) steps).

(** [t2 - t1 < d] is false: [t2] is not closer than [d] to [t1]. *)
Definition not_closer (d t1 t2 : float) : Prop :=
  (t2 - t1 <? d)%float = false.

(** [t2 - t1 >= d] *)
Definition apart (d t1 t2 : float) : Prop :=
  (d <=? t2 - t1)%float = true.

(** Every two neighbours in [ts] are related by [P]. *)
Fixpoint neighbours (P : float -> float -> Prop) (ts : list float) : Prop :=
  match ts with
  | t1 :: ((t2 :: _) as ts') => P t1 t2 /\ neighbours P ts'
  | _ => True
  end.

(** [current_time - last_frame_time < self.min_frame_interval], the test at
    the head of the body. *)
Definition too_early (w : CameraWorker) (l : Locals) (i : Input) : bool :=
  (now i - last_frame_time l <? min_frame_interval w)%float.

(** A read that the loop treats as a failure: [not ok or frame is None]. *)
Definition read_fails (r : bool * option Frame) : Prop :=
  fst r = false \/ snd r = None.

(** A [try] block of a stage raised in [detect] or in [annotate], on the
    array [frame]; [left] is what that array holds once the call that
    raised is over. *)
Definition hazmat_raises (h : HazmatStage) (frame left : Frame) : Prop :=
  hazmat_detect h frame = (left, None)
  \/ exists cids confs boxes frame1,
       hazmat_detect h frame = (frame1, Some (cids, confs, boxes))
       /\ hazmat_annotate h frame1 cids confs boxes = (left, None).

Definition qr_raises (q : QrStage) (frame left : Frame) : Prop :=
  qr_detect q frame = (left, None)
  \/ exists qr_res frame1,
       qr_detect q frame = (frame1, Some qr_res)
       /\ qr_annotate q frame1 qr_res = (left, None).

(** The parts of the worker that the loop never writes. *)
Definition same_config (w w' : CameraWorker) : Prop :=
  client w' = client w /\ _running w' = _running w
  /\ min_frame_interval w' = min_frame_interval w
  /\ hazmat_factory w' = hazmat_factory w
  /\ qr_factory w' = qr_factory w.

(** The worker as [run] has it when the loop starts. *)
Definition started (w : CameraWorker) (opens : bool) : CameraWorker :=
  set_client (set_running w true)
             (fst (open (client (set_running w true)) opens)).

Definition first_locals (t0 t1 : float) : Locals :=
  {| last_frame_time := t0; last_fps_time := t1;
     frame_count := 0; fps_avg := 0%float |}.

(** An iteration that did not get a frame: it slept the 5 ms slice because
    the next frame was not due, or it called the capture's [read] and then
    slept the 10 ms backoff. *)
Definition idle_step (s : Step) : Prop :=
  step_locals s = step_locals_before s
  /\ ((step_kind s = Paced /\ step_events s = [msleep 5]
       /\ too_early (step_before s) (step_locals_before s) (step_input s)
          = true)
      \/ (step_kind s = ReadFailed /\ step_events s = [cap_read; msleep 10]
          /\ too_early (step_before s) (step_locals_before s) (step_input s)
             = false)).

Definition is_finding_or_frame (e : Event) : bool :=
  match e with
  | frameReady _ | hazmatDet _ | qrDet _ => true
  | _ => false
  end.

(** An iteration that accepts a frame, told by the clock and the capture
    alone: the next frame is due (line 139) and the capture returns a
    frame (lines 143 and 144). *)
Definition accepts_frame (s : Step) : bool :=
  negb (too_early (step_before s) (step_locals_before s) (step_input s))
  && match cap_frame (step_input s) with
     | (true, Some _) => true
     | _ => false
     end.

(** The age of the throughput window when an iteration starts. *)
Definition window_age (s : Step) : float :=
  (now (step_input s) - last_fps_time (step_locals_before s))%float.

(** What an iteration does to the throughput window: an iteration that
    accepts a frame and finds the window at least one second old emits the
    count of the window (the frame just read included) over the age of the
    window and starts a new window at the current time; an iteration that
    accepts a frame in a younger window only counts its frame; an
    iteration that accepts no frame emits no sample and leaves the window
    alone, however old the window is. *)
Definition throughput_step (s : Step) : Prop :=
  let before := step_locals_before s in
  let after := step_locals s in
  if accepts_frame s then
    ((1 <=? window_age s)%float = true
     /\ filter is_fps (step_events s)
        = [fpsReady (float_of_int (frame_count before + 1)
                     / window_age s)%float]
     /\ frame_count after = 0%Z
     /\ last_fps_time after = now (step_input s))
    \/ ((1 <=? window_age s)%float = false
        /\ filter is_fps (step_events s) = []
        /\ frame_count after = (frame_count before + 1)%Z
        /\ last_fps_time after = last_fps_time before)
  else filter is_fps (step_events s) = [] /\ after = before.

(** What the specification says of the sample: whenever the window is at
    least one second old, the worker publishes one. *)
Definition publishes_when_due (s : Step) : Prop :=
  (1 <=? window_age s)%float = true ->
  exists fps, In (fpsReady fps) (step_events s).

(** A frame iteration publishes, as its last three events and in this
    order, the hazmat texts, the QR texts and the frame that [stages] made of
    the frame read in this very iteration; nothing else in the iteration is
    a frame or a findings list.  Other iterations publish nothing. *)
Definition paired_step (s : Step) : Prop :=
  match step_kind s with
  | Published =>
      exists frame frame' ht qt ev_st ev,
        cap_frame (step_input s) = (true, Some frame)
        /\ stages (step_before s) (world (step_input s)) frame
           = (step_worker s, (frame', ht, qt), ev_st)
        /\ step_events s = ev ++ [hazmatDet ht; qrDet qt; frameReady frame']
        /\ none is_finding_or_frame ev
  | _ => none is_publication (step_events s)
  end.

(** An iteration that gets as far as the stage blocks with [frame], told
    by the clock and the capture alone: the next frame is due, and the
    capture gives [frame]. *)
Definition gets_frame (s : Step) (frame : Frame) : Prop :=
  too_early (step_before s) (step_locals_before s) (step_input s) = false
  /\ cap_frame (step_input s) = (true, Some frame).

(** An iteration that gets a frame and in which the hazmat stage, enabled
    when the flags were read and constructed by the time it is to run,
    raises in [detect] or [annotate], leaving [left] in the array: the
    error is printed, the hazmat list published is empty, and the QR block
    is handed the same array, with [left] in it, so that the iteration
    goes through to the three publications and the frame published is
    what the QR block made of [left]. *)
Definition hazmat_isolated (s : Step) : Prop :=
  forall frame h left,
    gets_frame s frame ->
    _enable_hazmat (step_before s) = true ->
    hazmat (step_worker s) = Some h ->
    hazmat_raises h frame left ->
    step_kind s = Published
    /\ exists frame' qt ev_q ev,
         qr_pass (step_worker s) (_enable_qr (step_worker s)) left
         = (frame', qt, ev_q)
         /\ step_events s = ev ++ [hazmatDet []; qrDet qt; frameReady frame']
         /\ none is_finding_or_frame ev
         /\ In (print "[hazmat] run error:") ev.

(** The same for the QR stage, which is handed the array [frame1] that
    the hazmat block left: the QR list published is empty and the frame
    published is that array, with [left] in it. *)
Definition qr_isolated (s : Step) : Prop :=
  forall frame frame1 ht ev_h q left,
    gets_frame s frame ->
    _enable_qr (step_before s) = true ->
    qr (step_worker s) = Some q ->
    hazmat_pass (step_worker s) (_enable_hazmat (step_worker s)) frame
    = (frame1, ht, ev_h) ->
    qr_raises q frame1 left ->
    step_kind s = Published
    /\ exists ev,
         step_events s = ev ++ [hazmatDet ht; qrDet []; frameReady left]
         /\ none is_finding_or_frame ev
         /\ In (print "[qr] run error:") ev.

(** What the specification says of a failed stage and the frame: the
    frame in flight is left unmodified by the stage, so that the blocks
    after it and the publication get the pixels the stage was handed. *)
Definition hazmat_leaves_frame (s : Step) : Prop :=
  forall frame h left,
    gets_frame s frame ->
    _enable_hazmat (step_before s) = true ->
    hazmat (step_worker s) = Some h ->
    hazmat_raises h frame left ->
    exists frame' qt ev_q ev,
      qr_pass (step_worker s) (_enable_qr (step_worker s)) frame
      = (frame', qt, ev_q)
      /\ step_events s = ev ++ [hazmatDet []; qrDet qt; frameReady frame'].

(** An iteration that gets a frame at a moment when the hazmat stage is
    enabled and not constructed, and whose call of the hazmat factory
    raises. *)
Definition hazmat_factory_raises (s : Step) : Prop :=
  step_kind s = Published
  /\ _enable_hazmat (step_before s) = true
  /\ hazmat (step_before s) = None
  /\ exists factory,
      hazmat_factory (step_before s) = Some factory
      /\ factory (world (step_input s)) = Raises.

Definition qr_factory_raises (s : Step) : Prop :=
  step_kind s = Published
  /\ _enable_qr (step_before s) = true
  /\ qr (step_before s) = None
  /\ exists factory,
      qr_factory (step_before s) = Some factory
      /\ factory (world (step_input s)) = Raises.



(** *** Inputs and objects for concrete runs *)

(** An iteration in which the Consumer does nothing. *)
Definition quiet (t : float) (r : bool * option Frame) (x : World) : Input :=
  {| consumer_stop := false; consumer_hazmat := None; consumer_qr := None;
     now := t; cap_frame := r; world := x |}.

(** An iteration before which the Consumer writes the two flags. *)
Definition switching (haz qr : option bool) (t : float)
           (r : bool * option Frame) (x : World) : Input :=
  {| consumer_stop := false; consumer_hazmat := haz; consumer_qr := qr;
     now := t; cap_frame := r; world := x |}.

(** A hazmat detector whose [detect] raises on every frame, and a QR
    detector that finds nothing but whose [annotate] raises. *)
Definition broken_hazmat : HazmatStage :=
  {| hazmat_detect := fun frame => (frame, None);
     hazmat_annotate := fun frame _ _ _ => (frame, Some frame);
     hazmat_labels := None |}.

Definition broken_qr : QrStage :=
  {| qr_detect := fun frame => (frame, Some []);
     qr_annotate := fun frame _ => (frame, None) |}.

(** A hazmat detector that finds nothing and whose [annotate] draws into
    the array it is handed ([mark]) and then raises. *)
Definition scribbling_hazmat (mark : Frame -> Frame) : HazmatStage :=
  {| hazmat_detect := fun frame => (frame, Some ([], [], []));
     hazmat_annotate := fun frame _ _ _ => (mark frame, None);
     hazmat_labels := None |}.

(** A hazmat detector that reports the same detections on every frame,
    draws [mark] into the array it is handed and returns that array; an
    input before which the Consumer calls [stop()]. *)
Definition fixed_hazmat (cids : list Z) (confs : list Conf)
           (boxes : list Box) (labels : option (list string))
           (mark : Frame -> Frame) : HazmatStage :=
  {| hazmat_detect := fun frame => (frame, Some (cids, confs, boxes));
     hazmat_annotate := fun frame _ _ _ => (mark frame, Some (mark frame));
     hazmat_labels := labels |}.

(** A QR detector that finds the same codes on every frame, draws [mark]
    into the array it is handed and returns that array. *)
Definition fixed_qr (qr_res : list (string * Box)) (mark : Frame -> Frame)
  : QrStage :=
  {| qr_detect := fun frame => (frame, Some qr_res);
     qr_annotate := fun frame _ => (mark frame, Some (mark frame)) |}.

Definition stopping (t : float) (r : bool * option Frame) (x : World)
  : Input :=
  {| consumer_stop := true; consumer_hazmat := None; consumer_qr := None;
     now := t; cap_frame := r; world := x |}.

(** The number of frames accepted since the last [fpsReady] at the end of
    [steps], starting the count with [n]. *)
Fixpoint window_frames (n : Z) (steps : list Step) : Z :=
  match steps with
  | [] => n
  | s :: steps' =>
      window_frames (if existsb is_fps (step_events s) then 0
                     else if accepts_frame s then n + 1 else n)%Z steps'
  end.

(** *** The client, call by call *)

(** A call of one of the three methods of [ESP32CamClient], with what cv2
    does when the method reaches it. *)
Inductive ClientCall :=
| do_open (opens : bool)
| do_read (r : bool * option Frame)
| do_close.

Definition client_call (c : ESP32CamClient) (op : ClientCall)
  : ESP32CamClient * list Event :=
  match op with
  | do_open opens => (fst (open c opens), [])
  | do_read r => (c, snd (read c r))
  | do_close => close c
  end.

Fixpoint client_calls (c : ESP32CamClient) (ops : list ClientCall)
  : ESP32CamClient * list Event :=
  match ops with
  | [] => (c, [])
  | op :: ops' =>
      let (c1, ev1) := client_call c op in
      let (c2, ev2) := client_calls c1 ops' in
      (c2, ev1 ++ ev2)
  end.

Definition is_do_open (op : ClientCall) : bool :=
  match op with do_open _ => true | _ => false end.

(** 1 when the client holds a capture object, 0 when [_cap] is [None]. *)
Definition held (c : ESP32CamClient) : nat :=
  match _cap c with Some _ => 1 | None => 0 end.

(** *** More readings of traces *)

Definition is_opened (e : Event) : bool :=
  match e with opened _ _ => true | _ => false end.

Definition is_release (e : Event) : bool :=
  match e with cap_release => true | _ => false end.

Definition is_frame (e : Event) : bool :=
  match e with frameReady _ => true | _ => false end.

Definition is_hazmat_det (e : Event) : bool :=
  match e with hazmatDet _ => true | _ => false end.

Definition is_qr_det (e : Event) : bool :=
  match e with qrDet _ => true | _ => false end.

Definition is_cap_read (e : Event) : bool :=
  match e with cap_read => true | _ => false end.

(** The frame the capture returned in an iteration, if the iteration
    called the capture's [read] and the call returned [True] and a frame:
    what lines 69 to 73 and 144 take as a frame read. *)
Definition frames_read (s : Step) : list Frame :=
  if existsb is_cap_read (step_events s) then
    match cap_frame (step_input s) with
    | (true, Some frame) => [frame]
    | _ => []
    end
  else [].

(** An iteration that gets a frame at a moment when the hazmat stage is
    enabled and not constructed, and whose call of the hazmat factory
    returns [None]. *)
Definition hazmat_factory_returns_none (s : Step) : Prop :=
  step_kind s = Published
  /\ _enable_hazmat (step_before s) = true
  /\ hazmat (step_before s) = None
  /\ exists factory,
      hazmat_factory (step_before s) = Some factory
      /\ factory (world (step_input s)) = Returns None.

Definition qr_factory_returns_none (s : Step) : Prop :=
  step_kind s = Published
  /\ _enable_qr (step_before s) = true
  /\ qr (step_before s) = None
  /\ exists factory,
      qr_factory (step_before s) = Some factory
      /\ factory (world (step_input s)) = Returns None.

(** Calls of [detect] and [annotate], of either detector. *)
Definition is_detector_call (e : Event) : bool :=
  match e with
  | call_hazmat_detect _ | call_hazmat_annotate _
  | call_qr_detect _ | call_qr_annotate _ => true
  | _ => false
  end.

(** [0 <= cid < len(labels)] *)
Definition in_table (labels : list string) (cid : Z) : bool :=
  ((0 <=? cid) && (cid <? Z.of_nat (List.length labels)))%Z.

(** *** Binary64 comparisons and NaN *)

Lemma iter_pos_invariant {A} (P : A -> Prop) (f : A -> A) :
  (forall x, P x -> P (f x)) -> forall p x, P x -> P (iter_pos f p x).
Proof.
  intros Hf; induction p as [p IH|p IH|]; intros x Hx; simpl; auto.
Qed.

Lemma shr_1_nonneg mrs : (0 <= shr_m mrs)%Z -> (0 <= shr_m (shr_1 mrs))%Z.
Proof.
  destruct mrs as [m r s]; simpl.
  destruct m as [|[p|p|]|[p|p|]]; simpl; lia.
Qed.

Lemma shr_fexp_nonneg p emx m e l :
  (0 <= m)%Z -> (0 <= shr_m (fst (shr_fexp p emx m e l)))%Z.
Proof.
  intros Hm; unfold shr_fexp, shr.
  assert (H0 : (0 <= shr_m (shr_record_of_loc m l))%Z)
    by (destruct l as [|[| |]]; exact Hm).
  destruct (_ - e)%Z; simpl; auto.
  apply (iter_pos_invariant (fun mrs => (0 <= shr_m mrs)%Z));
    auto using shr_1_nonneg.
Qed.

Lemma round_nearest_even_nonneg m l :
  (0 <= m)%Z -> (0 <= round_nearest_even m l)%Z.
Proof.
  intros Hm; destruct l as [|[| |]]; simpl; try lia.
  destruct (Z.even m); lia.
Qed.

Lemma binary_round_aux_not_nan p emx sx mx ex lx :
  (0 <= mx)%Z -> binary_round_aux p emx sx mx ex lx <> S754_nan.
Proof.
  intros Hm; unfold binary_round_aux.
  pose proof (shr_fexp_nonneg p emx mx ex lx Hm) as H1.
  destruct (shr_fexp p emx mx ex lx) as [mrs' e']; simpl in H1.
  pose proof (shr_fexp_nonneg p emx _ e' loc_Exact
                (round_nearest_even_nonneg _ (loc_of_shr_record mrs') H1))
    as H2.
  destruct (shr_fexp p emx _ e' loc_Exact) as [mrs'' e'']; simpl in H2.
  destruct (shr_m mrs''); try discriminate; [|lia].
  destruct (_ <=? _)%Z; discriminate.
Qed.

Lemma binary_normalize_not_nan p emx m e szero :
  binary_normalize p emx m e szero <> S754_nan.
Proof.
  unfold binary_normalize, binary_round.
  destruct m as [|m|m]; try discriminate;
    destruct (shl_align _ _ _) as [mz ez];
    apply binary_round_aux_not_nan; lia.
Qed.

Lemma SFsub_not_nan p emx x y :
  SFfinite x -> SFfinite y -> SFsub p emx x y <> S754_nan.
Proof.
  destruct x as [sx|sx| |sx mx ex], y as [sy|sy| |sy my ey]; simpl;
    try tauto; intros _ _; try discriminate.
  - destruct sx, sy; discriminate.
  - apply binary_normalize_not_nan.
Qed.

Lemma SFdiv_not_nan p emx sx mx ex y :
  y <> S754_nan -> SFdiv p emx (S754_finite sx mx ex) y <> S754_nan.
Proof.
  destruct y as [sy|sy| |sy my ey]; simpl; try congruence; intros _;
    try discriminate.
  unfold SFdiv_core_binary.
  set (m' := match _ with Z0 => Z.pos mx | Z.pos _ => _ | Z.neg _ => 0%Z end).
  assert (Hm' : (0 <= m')%Z).
  { subst m'; destruct (_ - _ - _)%Z; try lia.
    apply Z.shiftl_nonneg; lia. }
  pose proof (Z.div_pos m' (Z.pos my) Hm' ltac:(lia)) as Hq.
  unfold Z.div in Hq.
  destruct (Z.div_eucl m' (Z.pos my)) as [q r]; simpl in Hq.
  now apply binary_round_aux_not_nan.
Qed.

Lemma is_finite_SFfinite (x : float) :
  is_finite x = true -> SFfinite (Prim2SF x).
Proof.
  unfold is_finite, Prim2SF; intros H.
  apply negb_true_iff, orb_false_iff in H as [-> ->].
  destruct (is_zero x); simpl; auto.
  destruct (Z.frexp x) as [r exp].
  destruct (shr_fexp _ _ _ _ _) as [mrs e'].
  destruct (shr_m mrs); simpl; auto.
Qed.

Lemma SFltb_false_SFleb (x y : spec_float) :
  x <> S754_nan -> y <> S754_nan ->
  SFltb x y = false -> SFleb y x = true.
Proof.
  unfold SFltb, SFleb.
  destruct x as [sx|sx| |sx mx ex], y as [sy|sy| |sy my ey];
    intros Hx Hy; try congruence; simpl;
    try (destruct sx; simpl; congruence);
    try (destruct sy; simpl; congruence);
    try (destruct sx, sy; simpl; congruence).
  destruct sx, sy; simpl; try congruence;
    rewrite (Z.compare_antisym ex ey);
    destruct (ex ?= ey)%Z; simpl; try congruence;
    change (Pos.compare_cont Eq my mx) with (Pos.compare my mx);
    change (Pos.compare_cont Eq mx my) with (Pos.compare mx my);
    rewrite (Pos.compare_antisym mx my);
    destruct (mx ?= my)%positive; simpl; congruence.
Qed.

Lemma positive_not_nan (x : float) :
  (0 <? x)%float = true -> Prim2SF x <> S754_nan.
Proof.
  rewrite ltb_spec; intros H E; rewrite E in H.
  destruct (Prim2SF 0); discriminate.
Qed.

(** For clock readings that are finite and a positive rate, "the
    difference is not below [1 / R]" is "the difference is at least
    [1 / R]". *)
Lemma not_below_at_least (t1 t2 R : float) :
  is_finite t1 = true -> is_finite t2 = true -> (0 <? R)%float = true ->
  (t2 - t1 <? 1 / R)%float = false -> (1 / R <=? t2 - t1)%float = true.
Proof.
  intros H1 H2 HR; rewrite ltb_spec, leb_spec, sub_spec, div_spec.
  apply SFltb_false_SFleb.
  - apply SFsub_not_nan; now apply is_finite_SFfinite.
  - change (Prim2SF 1) with (S754_finite false 4503599627370496 (-52)).
    apply SFdiv_not_nan; now apply positive_not_nan.
Qed.

(** *** The shape of one iteration *)

Ltac break_match :=
  match goal with
  | |- context [match ?x with _ => _ end] => destruct x eqn:?
  | H : context [match ?x with _ => _ end] |- _ => destruct x eqn:?
  end.

Ltac inv H := inversion H; subst; clear H.

Lemma same_config_refl w : same_config w w.
Proof. repeat split. Qed.

Lemma same_config_trans w1 w2 w3 :
  same_config w1 w2 -> same_config w2 w3 -> same_config w1 w3.
Proof.
  unfold same_config; intros (A1 & A2 & A3 & A4 & A5) (B1 & B2 & B3 & B4 & B5).
  repeat split; congruence.
Qed.

Lemma read_ok_inv c r frame ev :
  read c r = ((true, Some frame), ev) ->
  r = (true, Some frame) /\ ev = [cap_read] /\ _cap c <> None.
Proof.
  unfold read; intros H.
  destruct (_cap c); [|discriminate].
  destruct r as [ok fr]; destruct ok; inv H.
  repeat split; discriminate.
Qed.

Lemma read_fails_eq c r cap :
  _cap c = Some cap -> read_fails r ->
  exists fr, read c r = ((false, fr), [cap_read])
             \/ read c r = ((true, None), [cap_read]).
Proof.
  unfold read, read_fails; intros -> [H|H]; destruct r as [ok fr]; simpl in *;
    subst; [exists None; now left|].
  destruct ok; exists None; [now right|now left].
Qed.

Lemma construct_hazmat_inv w e x w' e' ev :
  construct_hazmat w e x = (w', e', ev) ->
  same_config w w' /\ _enable_qr w' = _enable_qr w /\ qr w' = qr w
  /\ (e = _enable_hazmat w -> e' = _enable_hazmat w')
  /\ none is_publication ev /\ none is_qr_call ev.
Proof.
  unfold construct_hazmat, none; intros H.
  repeat break_match; inv H; simpl;
    repeat split; auto; try congruence; repeat constructor.
Qed.

Lemma construct_qr_inv w e x w' e' ev :
  construct_qr w e x = (w', e', ev) ->
  same_config w w' /\ _enable_hazmat w' = _enable_hazmat w
  /\ hazmat w' = hazmat w
  /\ (e = _enable_qr w -> e' = _enable_qr w')
  /\ none is_publication ev /\ none is_hazmat_call ev.
Proof.
  unfold construct_qr, none; intros H.
  repeat break_match; inv H; simpl;
    repeat split; auto; try congruence; repeat constructor.
Qed.

Lemma run_hazmat_events h frame frame' texts ev :
  run_hazmat h frame = (frame', texts, ev) ->
  none is_publication ev /\ none is_qr_call ev
  /\ none is_hazmat_factory_call ev.
Proof.
  unfold run_hazmat, none; intros H.
  repeat break_match; inv H; repeat split; repeat constructor.
Qed.

Lemma run_qr_events q frame frame' texts ev :
  run_qr q frame = (frame', texts, ev) ->
  none is_publication ev /\ none is_hazmat_call ev
  /\ none is_qr_factory_call ev.
Proof.
  unfold run_qr, none; intros H.
  repeat break_match; inv H; repeat split; repeat constructor.
Qed.

Lemma hazmat_pass_events w e frame frame' texts ev :
  hazmat_pass w e frame = (frame', texts, ev) ->
  none is_publication ev /\ none is_qr_call ev
  /\ none is_hazmat_factory_call ev.
Proof.
  unfold hazmat_pass; intros H.
  destruct e; [destruct (hazmat w)|]; try (inv H; repeat split; constructor).
  eapply run_hazmat_events; eauto.
Qed.

Lemma qr_pass_events w e frame frame' texts ev :
  qr_pass w e frame = (frame', texts, ev) ->
  none is_publication ev /\ none is_hazmat_call ev
  /\ none is_qr_factory_call ev.
Proof.
  unfold qr_pass; intros H.
  destruct e; [destruct (qr w)|]; try (inv H; repeat split; constructor).
  eapply run_qr_events; eauto.
Qed.

Lemma none_app p tr1 tr2 : none p tr1 -> none p tr2 -> none p (tr1 ++ tr2).
Proof. unfold none; intros; apply Forall_app; auto. Qed.

Lemma none_count p tr : none p tr -> count p tr = 0%nat.
Proof.
  unfold none, count; induction 1 as [|e tr He _ IH]; simpl; auto.
  now rewrite He.
Qed.

Lemma count_app p tr1 tr2 :
  count p (tr1 ++ tr2) = (count p tr1 + count p tr2)%nat.
Proof. unfold count; now rewrite filter_app, length_app. Qed.

Lemma none_not_In p tr e : none p tr -> p e = true -> ~ In e tr.
Proof.
  unfold none; intros H He Hin.
  rewrite Forall_forall in H; apply H in Hin; congruence.
Qed.

(** [stages] is the four blocks in sequence; the locals [enable_haz] and
    [enable_qr] end up equal to the flags the worker is left with. *)
Lemma stages_inv w x frame w' frame' ht qt ev :
  stages w x frame = (w', (frame', ht, qt), ev) ->
  exists w1 ev1 ev2 frame1 ev3 ev4,
    construct_hazmat w (_enable_hazmat w) x = (w1, _enable_hazmat w', ev1)
    /\ construct_qr w1 (_enable_qr w) x = (w', _enable_qr w', ev2)
    /\ hazmat_pass w' (_enable_hazmat w') frame = (frame1, ht, ev3)
    /\ qr_pass w' (_enable_qr w') frame1 = (frame', qt, ev4)
    /\ ev = ev1 ++ ev2 ++ ev3 ++ ev4.
Proof.
  unfold stages; intros H.
  destruct (construct_hazmat w (_enable_hazmat w) x) as [[w1 eh] ev1] eqn:Hc1.
  destruct (construct_qr w1 (_enable_qr w) x) as [[w2 eq] ev2] eqn:Hc2.
  destruct (hazmat_pass w2 eh frame) as [[frame1 ht'] ev3] eqn:Hp1.
  destruct (qr_pass w2 eq frame1) as [[frame2 qt'] ev4] eqn:Hp2.
  inv H.
  destruct (construct_hazmat_inv _ _ _ _ _ _ Hc1) as (_ & Q1 & _ & E1 & _).
  destruct (construct_qr_inv _ _ _ _ _ _ Hc2) as (_ & Q2 & _ & E2 & _).
  assert (eh = _enable_hazmat w') by (rewrite Q2; auto).
  assert (eq = _enable_qr w') by (apply E2; congruence).
  subst eh eq.
  exists w1, ev1, ev2, frame1, ev3, ev4; repeat split; auto.
Qed.

Lemma stages_same_config w x frame w' r ev :
  stages w x frame = (w', r, ev) -> same_config w w'.
Proof.
  destruct r as [[frame' ht] qt]; intros H.
  apply stages_inv in H as (w1 & ev1 & ev2 & f1 & ev3 & ev4 & H1 & H2 & _).
  apply construct_hazmat_inv in H1 as (C1 & _).
  apply construct_qr_inv in H2 as (C2 & _).
  eapply same_config_trans; eauto.
Qed.

Lemma stages_events w x frame w' r ev :
  stages w x frame = (w', r, ev) -> none is_publication ev.
Proof.
  destruct r as [[frame' ht] qt]; intros H.
  apply stages_inv in H
    as (w1 & ev1 & ev2 & f1 & ev3 & ev4 & H1 & H2 & H3 & H4 & ->).
  apply construct_hazmat_inv in H1 as (_ & _ & _ & _ & P1 & _).
  apply construct_qr_inv in H2 as (_ & _ & _ & _ & P2 & _).
  apply hazmat_pass_events in H3 as (P3 & _).
  apply qr_pass_events in H4 as (P4 & _).
  repeat apply none_app; auto.
Qed.

(** The three ways through the body of the loop. *)
Lemma body_inv w l i w' l' ev k :
  body w l i = (w', l', ev, k) ->
  (k = Paced /\ too_early w l i = true
   /\ w' = w /\ l' = l /\ ev = [msleep 5])
  \/ (k = ReadFailed /\ too_early w l i = false
      /\ w' = w /\ l' = l
      /\ exists r ev_read,
          read (client w) (cap_frame i) = (r, ev_read) /\ read_fails r
          /\ ev = ev_read ++ [msleep 10])
  \/ (k = Published /\ too_early w l i = false
      /\ exists frame frame' ht qt ev_st ev_fps,
          cap_frame i = (true, Some frame) /\ _cap (client w) <> None
          /\ stages w (world i) frame = (w', (frame', ht, qt), ev_st)
          /\ throughput (accept l (now i)) (now i) = (l', ev_fps)
          /\ ev = [cap_read] ++ ev_st ++ ev_fps
                    ++ [hazmatDet ht; qrDet qt; frameReady frame']).
Proof.
  unfold body; fold (too_early w l i); intros H.
  destruct (too_early w l i) eqn:Hearly.
  - inv H; left; auto.
  - destruct (read (client w) (cap_frame i)) as [[ok fr] ev_read] eqn:Hr.
    assert (Hfail : read_fails (ok, fr) ->
                    exists r ev_read0,
                      (ok, fr, ev_read) = (r, ev_read0) /\ read_fails r
                      /\ ev_read ++ [msleep 10] = ev_read0 ++ [msleep 10])
      by (intros Hf; exists (ok, fr), ev_read; auto).
    destruct ok, fr as [frame|];
      try (inv H; right; left; repeat split; auto;
           apply Hfail; unfold read_fails; simpl; auto; fail).
    right; right.
    destruct (stages w (world i) frame) as [[w2 [[frame' ht] qt]] ev_st] eqn:Hs.
    destruct (throughput (accept l (now i)) (now i)) as [l2 ev_fps] eqn:Ht.
    inv H.
    apply read_ok_inv in Hr as (Hc & -> & Hn).
    repeat split; auto.
    exists frame, frame', ht, qt, ev_st, ev_fps; repeat split; auto.
Qed.

(** *** The loop *)

Lemma consumer_same_config i w :
  client (consumer i w) = client w
  /\ min_frame_interval (consumer i w) = min_frame_interval w
  /\ hazmat_factory (consumer i w) = hazmat_factory w
  /\ qr_factory (consumer i w) = qr_factory w
  /\ hazmat (consumer i w) = hazmat w
  /\ qr (consumer i w) = qr w.
Proof.
  unfold consumer.
  destruct (consumer_stop i), (consumer_hazmat i), (consumer_qr i);
    repeat split.
Qed.

(** The client holds the capture from [open] on, through every iteration. *)
Lemma started_holds_capture w opens : _cap (client (started w opens)) <> None.
Proof. unfold started; simpl; discriminate. Qed.

Lemma consumer_client i w : client (consumer i w) = client w.
Proof. now destruct (consumer_same_config i w) as [H _]. Qed.

Lemma consumer_running i w :
  _running (consumer i w) = _running w && negb (consumer_stop i).
Proof.
  unfold consumer.
  destruct (consumer_stop i), (consumer_hazmat i), (consumer_qr i);
    simpl; now rewrite ?andb_true_r, ?andb_false_r.
Qed.

Lemma consumer_enable_hazmat i w :
  _enable_hazmat (consumer i w)
  = match consumer_hazmat i with Some b => b | None => _enable_hazmat w end.
Proof.
  unfold consumer.
  destruct (consumer_stop i), (consumer_hazmat i), (consumer_qr i);
    reflexivity.
Qed.

Lemma consumer_enable_qr i w :
  _enable_qr (consumer i w)
  = match consumer_qr i with Some b => b | None => _enable_qr w end.
Proof.
  unfold consumer.
  destruct (consumer_stop i), (consumer_hazmat i), (consumer_qr i);
    reflexivity.
Qed.

Lemma loop_step w l i ins w' l' ev k :
  _running (consumer i w) = true ->
  body (consumer i w) l i = (w', l', ev, k) ->
  loop w l (i :: ins)
  = ({| step_before := consumer i w; step_locals_before := l;
        step_input := i; step_kind := k; step_events := ev;
        step_worker := w'; step_locals := l' |}
       :: fst (fst (loop w' l' ins)),
     snd (fst (loop w' l' ins)), snd (loop w' l' ins)).
Proof.
  intros Hr Hb; simpl; rewrite Hr, Hb.
  now destruct (loop w' l' ins) as [[steps p] evc].
Qed.

Lemma loop_stop w l i ins :
  _running (consumer i w) = false ->
  loop w l (i :: ins)
  = ([], Stopped (set_client (consumer i w)
                             (fst (close (client (consumer i w))))),
     snd (close (client (consumer i w)))).
Proof.
  intros Hr; simpl; rewrite Hr.
  now destruct (close (client (consumer i w))).
Qed.

Lemma body_same_config w l i w' l' ev k :
  body w l i = (w', l', ev, k) -> same_config w w'.
Proof.
  intros H; apply body_inv in H
    as [(_ & _ & -> & _)|[(_ & _ & -> & _)|(_ & _ & H)]];
    try apply same_config_refl.
  destruct H as (frame & frame' & ht & qt & ev_st & ev_fps & _ & _ & Hs & _).
  eapply stages_same_config; eauto.
Qed.

(** Induction over the iterations of the loop: an invariant [I] of the
    worker and locals, under a condition [C] on the inputs, gives [P] of
    every step. *)
Lemma loop_steps_ind (I : CameraWorker -> Locals -> Prop)
      (C : Input -> Prop) (P : Step -> Prop) :
  (forall w l i w' l' ev k,
      I w l -> C i -> _running (consumer i w) = true ->
      body (consumer i w) l i = (w', l', ev, k) ->
      I w' l'
      /\ P {| step_before := consumer i w; step_locals_before := l;
              step_input := i; step_kind := k; step_events := ev;
              step_worker := w'; step_locals := l' |}) ->
  forall ins w l,
    I w l -> Forall C ins -> Forall P (fst (fst (loop w l ins))).
Proof.
  intros Hstep; induction ins as [|i ins IH]; intros w l HI HC;
    [constructor|].
  inv HC.
  destruct (_running (consumer i w)) eqn:Hr.
  - destruct (body (consumer i w) l i) as [[[w' l'] ev] k] eqn:Hb.
    rewrite (loop_step _ _ _ _ _ _ _ _ Hr Hb); simpl.
    destruct (Hstep _ _ _ _ _ _ _ HI H1 Hr Hb) as [HI' HP].
    constructor; auto.
  - rewrite (loop_stop _ _ _ _ Hr); constructor.
Qed.

Lemma Forall_True {A} (l : list A) : Forall (fun _ => True) l.
Proof. induction l; constructor; auto. Qed.

(** Nothing but a stop request ends the loop. *)
Lemma loop_keeps_running ins : forall w l,
  _running w = true ->
  Forall (fun i => consumer_stop i = false) ins ->
  exists steps w' l',
    loop w l ins = (steps, Streaming w' l', [])
    /\ List.length steps = List.length ins.
Proof.
  induction ins as [|i ins IH]; intros w l Hrun Hins.
  - exists [], w, l; split; reflexivity.
  - inv Hins.
    assert (Hr : _running (consumer i w) = true)
      by (rewrite consumer_running, Hrun, H1; reflexivity).
    destruct (body (consumer i w) l i) as [[[w1 l1] ev] k] eqn:Hb.
    rewrite (loop_step _ _ _ _ _ _ _ _ Hr Hb).
    pose proof (body_same_config _ _ _ _ _ _ _ Hb) as (_ & Hrun1 & _).
    destruct (IH w1 l1) as (steps & w' & l' & Hl & Hlen); auto;
      [congruence|].
    rewrite Hl; simpl.
    eexists _, w', l'; split; [reflexivity|simpl; congruence].
Qed.

Lemma loop_streaming ins : forall w l steps w' l' evc,
  loop w l ins = (steps, Streaming w' l', evc) ->
  client w' = client w /\ evc = [].
Proof.
  induction ins as [|i ins IH]; intros w l steps w' l' evc H.
  - inv H; auto.
  - destruct (_running (consumer i w)) eqn:Hr.
    + destruct (body (consumer i w) l i) as [[[w1 l1] ev] k] eqn:Hb.
      rewrite (loop_step _ _ _ _ _ _ _ _ Hr Hb) in H.
      destruct (loop w1 l1 ins) as [[steps1 p1] evc1] eqn:Hl.
      cbn [fst snd] in H; inv H.
      destruct (IH _ _ _ _ _ _ Hl) as [Hc ->].
      pose proof (body_same_config _ _ _ _ _ _ _ Hb) as (Hc1 & _).
      destruct (consumer_same_config i w) as (Hc0 & _).
      split; congruence.
    + rewrite (loop_stop _ _ _ _ Hr) in H; discriminate.
Qed.

(** The loop over more inputs goes on from where it was. *)
Lemma loop_app pre : forall w l rest steps w' l' evc,
  loop w l pre = (steps, Streaming w' l', evc) ->
  loop w l (pre ++ rest)
  = (steps ++ fst (fst (loop w' l' rest)), snd (fst (loop w' l' rest)),
     snd (loop w' l' rest)).
Proof.
  induction pre as [|i pre IH]; intros w l rest steps w' l' evc H.
  - inv H; simpl app.
    now destruct (loop w' l' rest) as [[steps p] evc].
  - destruct (_running (consumer i w)) eqn:Hr.
    + destruct (body (consumer i w) l i) as [[[w1 l1] ev] k] eqn:Hb.
      rewrite (loop_step _ _ _ _ _ _ _ _ Hr Hb) in H.
      change ((i :: pre) ++ rest) with (i :: (pre ++ rest)).
      rewrite (loop_step _ _ _ _ _ _ _ _ Hr Hb).
      destruct (loop w1 l1 pre) as [[steps1 p1] evc1] eqn:Hl.
      cbn [fst snd] in H; inv H.
      now rewrite (IH _ _ rest _ _ _ _ Hl).
    + rewrite (loop_stop _ _ _ _ Hr) in H; discriminate.
Qed.

(** A loop that is still running was running when it started. *)
Lemma loop_streaming_running ins : forall w l steps w' l' evc,
  loop w l ins = (steps, Streaming w' l', evc) ->
  _running w' = _running w.
Proof.
  induction ins as [|i ins IH]; intros w l steps w' l' evc H.
  - now inv H.
  - destruct (_running (consumer i w)) eqn:Hr.
    + destruct (body (consumer i w) l i) as [[[w1 l1] ev] k] eqn:Hb.
      rewrite (loop_step _ _ _ _ _ _ _ _ Hr Hb) in H.
      destruct (loop w1 l1 ins) as [[steps1 p1] evc1] eqn:Hl.
      cbn [fst snd] in H; inv H.
      rewrite (IH _ _ _ _ _ _ Hl).
      pose proof (body_same_config _ _ _ _ _ _ _ Hb) as (_ & Hr1 & _).
      pose proof Hr as Hr0; rewrite consumer_running in Hr0.
      apply andb_true_iff in Hr0 as [Hr0 _]; congruence.
    + rewrite (loop_stop _ _ _ _ Hr) in H; discriminate.
Qed.

Lemma throughput_last_frame_time l t l' ev :
  throughput (accept l t) t = (l', ev) -> last_frame_time l' = t.
Proof.
  unfold throughput; intros H; destruct (_ <=? _)%float; now inv H.
Qed.

Lemma neighbours_tail P t ts : neighbours P (t :: ts) -> neighbours P ts.
Proof. destruct ts; simpl; tauto. Qed.

(** From the stored [last_frame_time] on, no accepted timestamp is closer
    than [min_frame_interval] to the one before it. *)
Lemma loop_accepted_not_closer ins : forall w l,
  neighbours (not_closer (min_frame_interval w))
             (last_frame_time l
                :: accepted_times (fst (fst (loop w l ins)))).
Proof.
  induction ins as [|i ins IH]; intros w l; [exact I|].
  destruct (_running (consumer i w)) eqn:Hr.
  - destruct (body (consumer i w) l i) as [[[w' l'] ev] k] eqn:Hb.
    rewrite (loop_step _ _ _ _ _ _ _ _ Hr Hb).
    specialize (IH w' l').
    pose proof (body_same_config _ _ _ _ _ _ _ Hb) as (_ & _ & Hm & _).
    destruct (consumer_same_config i w) as (_ & Hm' & _).
    rewrite Hm, Hm' in IH.
    apply body_inv in Hb
      as [(-> & _ & _ & -> & _)|[(-> & _ & _ & -> & _)
                               |(-> & Hle & frame & frame' & ht & qt & ev_st
                                 & ev_fps & _ & _ & _ & Ht & _)]];
      unfold accepted_times in *; simpl in *; auto.
    apply throughput_last_frame_time in Ht.
    rewrite Ht in *; split; auto.
    unfold too_early in Hle; rewrite Hm' in Hle; exact Hle.
  - rewrite (loop_stop _ _ _ _ Hr); exact I.
Qed.

(** *** [run] *)

Lemma run_opens w t0 t1 ins :
  run w true t0 t1 ins
  = ([opened true "opened"], loop (started w true) (first_locals t0 t1) ins).
Proof. reflexivity. Qed.

Lemma run_open_fails w t0 t1 ins :
  run w false t0 t1 ins
  = ([opened false ("Could not open stream " ++ stream_url (client w))%string],
     ([], Stopped (started w false), [])).
Proof. reflexivity. Qed.

Lemma steps_of_run_opens w t0 t1 ins :
  steps_of (run w true t0 t1 ins)
  = fst (fst (loop (started w true) (first_locals t0 t1) ins)).
Proof.
  rewrite run_opens; unfold steps_of.
  now destruct (loop _ _ _) as [[steps p] evc].
Qed.

Lemma init_facts url hf qf R w :
  init url hf qf R = Some w ->
  min_frame_interval w = (1 / R)%float
  /\ hazmat_factory w = hf /\ qr_factory w = qf
  /\ hazmat w = None /\ qr w = None
  /\ _enable_hazmat w = false /\ _enable_qr w = false.
Proof.
  unfold init; destruct (R =? 0)%float; intros H; inv H; repeat split.
Qed.

(** A float above zero is not equal to zero. *)
Lemma positive_nonzero (x : float) :
  (0 <? x)%float = true -> (x =? 0)%float = false.
Proof.
  rewrite ltb_spec, eqb_spec.
  destruct (Prim2SF x) as [sx|sx| |sx m e]; cbn; try discriminate; auto;
    destruct sx; cbn; try discriminate; auto.
Qed.

Lemma init_positive url hf qf R :
  (0 <? R)%float = true -> exists w, init url hf qf R = Some w.
Proof.
  intros HR; unfold init; rewrite (positive_nonzero R HR); eauto.
Qed.

Lemma neighbours_impl (P Q : float -> float -> Prop) (F : float -> Prop) :
  (forall t1 t2, F t1 -> F t2 -> P t1 t2 -> Q t1 t2) ->
  forall ts, Forall F ts -> neighbours P ts -> neighbours Q ts.
Proof.
  intros HPQ; induction ts as [|t1 ts IH]; intros HF HP; [exact I|].
  destruct ts as [|t2 ts]; [exact I|].
  inversion HF as [|? ? F1 HF']; subst.
  inversion HF' as [|? ? F2 _]; subst.
  destruct HP as [HP1 HP']; split; auto.
Qed.

(** The timestamps of accepted frames are clock readings of the run. *)
Lemma loop_accepted_clock (F : float -> Prop) ins : forall w l,
  Forall (fun i => F (now i)) ins ->
  Forall F (accepted_times (fst (fst (loop w l ins)))).
Proof.
  induction ins as [|i ins IH]; intros w l Hins; [constructor|].
  inversion Hins as [|? ? Hi Hins']; subst.
  destruct (_running (consumer i w)) eqn:Hr.
  - destruct (body (consumer i w) l i) as [[[w' l'] ev] k] eqn:Hb.
    rewrite (loop_step _ _ _ _ _ _ _ _ Hr Hb).
    specialize (IH w' l' Hins').
    apply body_inv in Hb
      as [(-> & _)|[(-> & _)
                   |(-> & _ & frame & frame' & ht & qt & ev_st & ev_fps
                     & _ & _ & _ & Ht & _)]];
      unfold accepted_times in *; simpl; auto.
    apply throughput_last_frame_time in Ht.
    constructor; [rewrite Ht; exact Hi|exact IH].
  - rewrite (loop_stop _ _ _ _ Hr); constructor.
Qed.

(** Claim C1 (pacing invariant).  For every target rate [R > 0] the worker
    can be constructed, and in every run of it: of any two consecutive
    timestamps stored for accepted frames, the later is not closer than
    [1 / R] to the earlier (the test [t2 - t1 < 1 / R] is false); when the
    clock readings of the run are finite numbers, this is to say that
    [t2 - t1 >= 1 / R]; and an iteration that finds less than [1 / R]
    elapsed since [last_frame_time] sleeps the fixed 5 ms slice, reads no
    frame and leaves the locals as they were, so that the next iteration
    checks again. *)
Theorem pacing_invariant url hf qf (R : float) :
  (0 <? R)%float = true ->
  exists w,
    init url hf qf R = Some w
    /\ forall opens t0 t1 ins,
        neighbours (not_closer (1 / R))
                   (accepted_times (steps_of (run w opens t0 t1 ins)))
        /\ (Forall (fun i => is_finite (now i) = true) ins ->
            neighbours (apart (1 / R))
                       (accepted_times (steps_of (run w opens t0 t1 ins))))
        /\ Forall (fun s =>
                     (now (step_input s)
                        - last_frame_time (step_locals_before s) <? 1 / R)%float
                     = true ->
                     step_kind s = Paced
                     /\ step_events s = [msleep 5]
                     /\ step_locals s = step_locals_before s)
                  (steps_of (run w opens t0 t1 ins)).
Proof.
  intros HR.
  destruct (init_positive url hf qf R HR) as [w Hw].
  exists w; split; auto.
  apply init_facts in Hw as (Hm & _).
  intros [|] t0 t1 ins;
    [|rewrite run_open_fails; simpl; repeat split; constructor].
  rewrite steps_of_run_opens.
  assert (Hm' : min_frame_interval (started w true) = (1 / R)%float)
    by exact Hm.
  assert (Hn : neighbours (not_closer (1 / R))
                 (accepted_times
                    (fst (fst (loop (started w true) (first_locals t0 t1)
                                    ins)))))
    by (rewrite <- Hm'; eapply neighbours_tail, loop_accepted_not_closer).
  split; [exact Hn|split].
  - intros Hfin.
    apply (neighbours_impl (not_closer (1 / R)) (apart (1 / R))
                           (fun t => is_finite t = true)); auto.
    + intros a b Ha Hb Hab; now apply not_below_at_least.
    + now apply (loop_accepted_clock (fun t => is_finite t = true)).
  - apply (loop_steps_ind (fun w _ => min_frame_interval w = (1 / R)%float)
                          (fun _ => True)); auto using Forall_True.
    intros w0 l i w' l' ev k Hi _ _ Hb; simpl.
    pose proof (body_same_config _ _ _ _ _ _ _ Hb) as (_ & _ & Hc & _).
    destruct (consumer_same_config i w0) as (_ & Hc' & _).
    split; [congruence|].
    intros Hlt.
    assert (Hlt' : too_early (consumer i w0) l i = true)
      by (unfold too_early; rewrite Hc', Hi; exact Hlt).
    apply body_inv in Hb
      as [(-> & _ & _ & -> & ->)|[(_ & Hle & _)|(_ & Hle & _)]]; auto;
      congruence.
Qed.

(** Claim C3.  When the stream does not open, everything the run emits or
    calls is the single notification [opened(False, "Could not open stream
    <url>")]: the loop executes no iteration and the run has returned. *)
Theorem open_failure_reported_once w t0 t1 ins :
  trace (run w false t0 t1 ins)
  = [opened false ("Could not open stream " ++ stream_url (client w))%string]
  /\ steps_of (run w false t0 t1 ins) = []
  /\ final (run w false t0 t1 ins) = Stopped (started w false)
  /\ count is_publication (trace (run w false t0 t1 ins)) = 0%nat.
Proof. repeat split. Qed.

(** The other exit of [run]: when the loop ends, the capture has been
    released and [_cap] is [None]. *)
Lemma stop_releases_capture ins : forall w l cap steps w' evc,
  _cap (client w) = Some cap ->
  loop w l ins = (steps, Stopped w', evc) ->
  _cap (client w') = None /\ evc = [cap_release].
Proof.
  induction ins as [|i ins IH]; intros w l cap steps w' evc Hc H;
    [discriminate|].
  destruct (consumer_same_config i w) as (Hcl & _).
  destruct (_running (consumer i w)) eqn:Hr.
  - destruct (body (consumer i w) l i) as [[[w1 l1] ev] k] eqn:Hb.
    rewrite (loop_step _ _ _ _ _ _ _ _ Hr Hb) in H.
    pose proof (body_same_config _ _ _ _ _ _ _ Hb) as (Hcl' & _).
    destruct (loop w1 l1 ins) as [[steps1 p1] evc1] eqn:Hl; simpl in H.
    inv H; apply (IH w1 l1 cap steps1 w' evc); [congruence|exact Hl].
  - rewrite (loop_stop _ _ _ _ Hr) in H.
    unfold close in H; rewrite Hcl, Hc in H; simpl in H.
    now inv H.
Qed.

(** Claim C4, at the failing input.  When the stream does not open, [run]
    returns with the capture object still stored in the client's [_cap] and
    without any call of its [release].  When the stream opened and [run]
    returns, the capture has been released and [_cap] is [None]. *)
Theorem open_failure_keeps_capture w t0 t1 ins :
  (exists w',
      final (run w false t0 t1 ins) = Stopped w'
      /\ _cap (client w') = Some {| isOpened := false |}
      /\ ~ In cap_release (trace (run w false t0 t1 ins)))
  /\ (forall w',
         final (run w true t0 t1 ins) = Stopped w' ->
         _cap (client w') = None
         /\ In cap_release (trace (run w true t0 t1 ins))).
Proof.
  split.
  - exists (started w false); repeat split.
    rewrite run_open_fails; simpl; intros [H|[]]; discriminate.
  - rewrite run_opens; simpl; intros w' H.
    destruct (loop (started w true) (first_locals t0 t1) ins)
      as [[steps p] evc] eqn:Hl.
    simpl in H; subst p.
    destruct (stop_releases_capture ins (started w true) (first_locals t0 t1)
                                    {| isOpened := true |} steps w' evc
                                    eq_refl Hl) as [Hc ->].
    split; [exact Hc|].
    right; apply in_or_app; right; simpl; auto.
Qed.

(** *** Read failures *)

Lemma idle_step_events s : idle_step s -> none is_publication (step_events s).
Proof.
  intros (_ & [(_ & -> & _)|(_ & -> & _)]); repeat constructor.
Qed.

Lemma idle_steps_events steps :
  Forall idle_step steps -> none is_publication (events_of steps).
Proof.
  unfold events_of; induction 1 as [|s steps Hs _ IH]; simpl;
    [constructor|].
  apply none_app; auto using idle_step_events.
Qed.

Lemma loop_read_failures ins : forall w l cap,
  _running w = true -> _cap (client w) = Some cap ->
  Forall (fun i => consumer_stop i = false /\ read_fails (cap_frame i)) ins ->
  exists steps,
    loop w l ins = (steps, Streaming (consumers ins w) l, [])
    /\ List.length steps = List.length ins
    /\ Forall idle_step steps.
Proof.
  induction ins as [|i ins IH]; intros w l cap Hrun Hcap Hins.
  - exists []; repeat split; constructor.
  - inv Hins. destruct H1 as [Hstop Hfail].
    assert (Hr : _running (consumer i w) = true)
      by (rewrite consumer_running, Hrun, Hstop; reflexivity).
    destruct (consumer_same_config i w) as (Hcl & _).
    destruct (body (consumer i w) l i) as [[[w1 l1] ev] k] eqn:Hb.
    rewrite (loop_step _ _ _ _ _ _ _ _ Hr Hb).
    assert (Hidle : w1 = consumer i w /\ l1 = l
                    /\ idle_step
                         {| step_before := consumer i w;
                            step_locals_before := l; step_input := i;
                            step_kind := k; step_events := ev;
                            step_worker := w1; step_locals := l1 |}).
    { apply body_inv in Hb
        as [(-> & Hlt & -> & -> & ->)
           |[(-> & Hle & -> & -> & r & ev_read & Hrd & _ & ->)
            |(_ & _ & frame & frame' & ht & qt & ev_st & ev_fps & Hfr & _)]].
      - repeat split; left; auto.
      - repeat split; right; repeat split; auto; simpl.
        rewrite Hcl in Hrd.
        destruct (read_fails_eq _ _ _ Hcap Hfail) as [fr [E|E]];
          rewrite E in Hrd; now inv Hrd.
      - exfalso; rewrite Hfr in Hfail; destruct Hfail; discriminate. }
    destruct Hidle as (-> & -> & Hidle).
    destruct (IH (consumer i w) l cap Hr) as (steps & Hl & Hlen & Hall);
      auto; [congruence|].
    rewrite Hl; simpl.
    exists ({| step_before := consumer i w; step_locals_before := l;
               step_input := i; step_kind := k; step_events := ev;
               step_worker := consumer i w; step_locals := l |} :: steps).
    repeat split; simpl; auto.
Qed.

(** Claim C7.  Anywhere in a run whose stream opened: after any
    iterations [pre] without a stop request, which may have accepted
    frames, any sequence [fails] of iterations whose reads all fail and
    during which no stop is requested leaves the worker in its loop, with
    the locals the sequence started with and a worker changed by nothing
    but the Consumer's writes of the flags; every one of the iterations
    [mid] of the sequence was executed; each either found the next frame
    not yet due and slept 5 ms, or was due, called [read] and slept the
    10 ms backoff (so every iteration that is due reads again); the
    sequence adds no [frameReady], [hazmatDet], [qrDet] or [fpsReady] to
    the trace; and whatever comes next, [post], is handled by the loop
    from that worker and those locals. *)
Theorem read_failures_keep_streaming w t0 t1 pre fails post :
  Forall (fun i => consumer_stop i = false) pre ->
  Forall (fun i => consumer_stop i = false /\ read_fails (cap_frame i))
         fails ->
  exists w0 l0 mid,
    final (run w true t0 t1 pre) = Streaming w0 l0
    /\ final (run w true t0 t1 (pre ++ fails))
       = Streaming (consumers fails w0) l0
    /\ steps_of (run w true t0 t1 (pre ++ fails))
       = steps_of (run w true t0 t1 pre) ++ mid
    /\ trace (run w true t0 t1 (pre ++ fails))
       = trace (run w true t0 t1 pre) ++ events_of mid
    /\ List.length mid = List.length fails
    /\ Forall idle_step mid
    /\ none is_publication (events_of mid)
    /\ steps_of (run w true t0 t1 (pre ++ fails ++ post))
       = steps_of (run w true t0 t1 pre) ++ mid
           ++ fst (fst (loop (consumers fails w0) l0 post)).
Proof.
  intros Hpre Hfails.
  destruct (loop_keeps_running pre (started w true) (first_locals t0 t1)
                               eq_refl Hpre)
    as (steps0 & w0 & l0 & Hl & _).
  destruct (loop_streaming _ _ _ _ _ _ _ Hl) as [Hc _].
  pose proof (loop_streaming_running _ _ _ _ _ _ _ Hl) as Hrun.
  destruct (loop_read_failures fails w0 l0 {| isOpened := true |})
    as (mid & Hm & Hlen & Hidle); auto; [rewrite Hc; reflexivity|].
  pose proof (loop_app _ _ _ fails _ _ _ _ Hl) as Hpf.
  rewrite Hm in Hpf; cbn [fst snd] in Hpf.
  pose proof (loop_app _ _ _ post _ _ _ _ Hpf) as Hpfp.
  rewrite <- app_assoc in Hpfp.
  exists w0, l0, mid.
  rewrite !run_opens, Hl, Hpf, Hpfp; cbn [final steps_of trace fst snd].
  repeat split; auto.
  - fold (events_of steps0); fold (events_of (steps0 ++ mid)).
    unfold events_of; rewrite map_app, concat_app, !app_nil_r.
    now rewrite app_assoc.
  - now apply idle_steps_events.
  - now rewrite app_assoc.
Qed.

(** *** Throughput *)

Lemma throughput_inv l t l' ev :
  throughput (accept l t) t = (l', ev) ->
  last_frame_time l' = t
  /\ (((1 <=? t - last_fps_time l)%float = true
       /\ ev = [fpsReady (float_of_int (frame_count l + 1)
                          / (t - last_fps_time l))%float]
       /\ frame_count l' = 0%Z /\ last_fps_time l' = t)
      \/ ((1 <=? t - last_fps_time l)%float = false
          /\ ev = [] /\ frame_count l' = (frame_count l + 1)%Z
          /\ last_fps_time l' = last_fps_time l)).
Proof.
  unfold throughput, accept; simpl; intros H.
  destruct (_ <=? _)%float eqn:E; inv H; split; auto.
Qed.

Lemma none_publication_fps tr : none is_publication tr -> none is_fps tr.
Proof.
  unfold none; intros H; eapply Forall_impl; [|exact H].
  now intros [] He.
Qed.

Lemma none_publication_finding tr :
  none is_publication tr -> none is_finding_or_frame tr.
Proof.
  unfold none; intros H; eapply Forall_impl; [|exact H].
  now intros [] He.
Qed.

Lemma none_filter p tr : none p tr -> filter p tr = [].
Proof.
  unfold none; induction 1 as [|e tr He _ IH]; simpl; auto.
  now rewrite He.
Qed.

Lemma read_events c r res ev :
  read c r = (res, ev) -> ev = [] \/ ev = [cap_read].
Proof.
  unfold read; destruct (_cap c), r as [[|] fr]; intros H; inv H; auto.
Qed.

(** With the capture held, the clock and the capture decide which way an
    iteration goes. *)
Lemma body_accepts w l i w' l' ev k :
  _cap (client w) <> None ->
  body w l i = (w', l', ev, k) ->
  accepts_frame {| step_before := w; step_locals_before := l;
                   step_input := i; step_kind := k; step_events := ev;
                   step_worker := w'; step_locals := l' |}
  = match k with Published => true | _ => false end.
Proof.
  intros Hcap H; unfold accepts_frame; simpl.
  apply body_inv in H
    as [(-> & -> & _)
       |[(-> & -> & _ & _ & r & ev_read & Hrd & Hfail & _)
        |(-> & -> & frame & frame' & ht & qt & ev_st & ev_fps & -> & _)]];
    auto.
  simpl. unfold read in Hrd.
  destruct (_cap (client w)); [|congruence].
  destruct (cap_frame i) as [[|] [fr|]]; auto.
  inv Hrd; destruct Hfail; discriminate.
Qed.

Lemma body_throughput_kind w l i w' l' ev k :
  body w l i = (w', l', ev, k) ->
  match k with
  | Published =>
      ((1 <=? now i - last_fps_time l)%float = true
       /\ filter is_fps ev
          = [fpsReady (float_of_int (frame_count l + 1)
                       / (now i - last_fps_time l))%float]
       /\ frame_count l' = 0%Z
       /\ last_fps_time l' = now i)
      \/ ((1 <=? now i - last_fps_time l)%float = false
          /\ filter is_fps ev = []
          /\ frame_count l' = (frame_count l + 1)%Z
          /\ last_fps_time l' = last_fps_time l)
  | _ => filter is_fps ev = [] /\ l' = l
  end.
Proof.
  intros H.
  apply body_inv in H
    as [(-> & _ & _ & -> & ->)
       |[(-> & _ & _ & -> & r & ev_read & Hrd & _ & ->)
        |(-> & _ & frame & frame' & ht & qt & ev_st & ev_fps & _ & _ & Hs
          & Ht & ->)]]; auto.
  - apply read_events in Hrd as [-> | ->]; auto.
  - apply stages_events, none_publication_fps, none_filter in Hs.
    simpl; rewrite !filter_app, Hs; simpl; rewrite app_nil_r.
    apply throughput_inv in Ht
      as (_ & [(Hle & -> & Hc & Hf)|(Hlt & -> & Hc & Hf)]); auto.
Qed.

Lemma body_throughput_step w l i w' l' ev k :
  _cap (client w) <> None ->
  body w l i = (w', l', ev, k) ->
  throughput_step {| step_before := w; step_locals_before := l;
                     step_input := i; step_kind := k; step_events := ev;
                     step_worker := w'; step_locals := l' |}.
Proof.
  intros Hcap H; unfold throughput_step.
  rewrite (body_accepts _ _ _ _ _ _ _ Hcap H).
  apply body_throughput_kind in H.
  unfold window_age; destruct k; exact H.
Qed.

Lemma existsb_filter {A} (p : A -> bool) (l : list A) :
  existsb p l = match filter p l with [] => false | _ => true end.
Proof.
  induction l as [|a l IH]; simpl; auto.
  destruct (p a); simpl; auto.
Qed.

(** From the stored [last_fps_time] on, the iterations that emit
    [fpsReady] are at least one second apart. *)
Lemma loop_fps_apart ins : forall w l,
  neighbours (apart 1)
             (last_fps_time l :: fps_times (fst (fst (loop w l ins)))).
Proof.
  induction ins as [|i ins IH]; intros w l; [exact I|].
  destruct (_running (consumer i w)) eqn:Hr.
  - destruct (body (consumer i w) l i) as [[[w' l'] ev] k] eqn:Hb.
    rewrite (loop_step _ _ _ _ _ _ _ _ Hr Hb).
    specialize (IH w' l').
    apply body_throughput_kind in Hb.
    unfold fps_times in *; simpl; rewrite existsb_filter.
    destruct k;
      try (destruct Hb as [-> ->]; exact IH).
    destruct Hb as [(Hle & -> & _ & Hf)|(_ & -> & _ & Hf)];
      rewrite Hf in IH; simpl; auto.
  - rewrite (loop_stop _ _ _ _ Hr); exact I.
Qed.

(** [frame_count] is the number of frames accepted since the last
    [fpsReady]. *)
Lemma loop_frame_count ins : forall w l pre s post,
  _cap (client w) <> None ->
  fst (fst (loop w l ins)) = pre ++ s :: post ->
  frame_count (step_locals_before s) = window_frames (frame_count l) pre.
Proof.
  induction ins as [|i ins IH]; intros w l pre s post Hcap H.
  - destruct pre; discriminate.
  - destruct (_running (consumer i w)) eqn:Hr.
    + destruct (body (consumer i w) l i) as [[[w' l'] ev] k] eqn:Hb.
      rewrite (loop_step _ _ _ _ _ _ _ _ Hr Hb) in H; simpl in H.
      destruct pre as [|s1 pre]; simpl in H; inv H; [reflexivity|].
      rewrite <- (consumer_client i w) in Hcap.
      assert (Hcap' : _cap (client w') <> None)
        by (destruct (body_same_config _ _ _ _ _ _ _ Hb) as [Hc _];
            now rewrite Hc).
      rewrite (IH _ _ _ _ _ Hcap' H2).
      cbn [window_frames step_events].
      rewrite (body_accepts _ _ _ _ _ _ _ Hcap Hb), existsb_filter.
      apply body_throughput_kind in Hb.
      destruct k; try (destruct Hb as [-> ->]; reflexivity).
      destruct Hb as [(_ & -> & -> & _)|(_ & -> & -> & _)]; reflexivity.
    + rewrite (loop_stop _ _ _ _ Hr) in H; destruct pre; discriminate.
Qed.

(** Claim C8, amended.  In every run, the iterations that emit [fpsReady]
    are at least one second apart by the worker's clock, and every
    iteration treats the throughput window as [throughput_step] says: an
    iteration that accepts a frame at one second or more since the window
    started emits exactly one [fpsReady] carrying the frame count (its own
    frame included) over the elapsed time, zeroes the count and restarts
    the window at the current time; an iteration that accepts no frame
    emits none and leaves the window as it is.  The frame count an
    iteration starts with is the number of frames accepted since the last
    [fpsReady]. *)
Theorem throughput_once_per_window w opens t0 t1 ins :
  neighbours (apart 1) (t1 :: fps_times (steps_of (run w opens t0 t1 ins)))
  /\ Forall throughput_step (steps_of (run w opens t0 t1 ins))
  /\ forall pre s post,
      steps_of (run w opens t0 t1 ins) = pre ++ s :: post ->
      frame_count (step_locals_before s) = window_frames 0 pre.
Proof.
  destruct opens.
  - rewrite steps_of_run_opens; repeat split.
    + apply (loop_fps_apart ins (started w true) (first_locals t0 t1)).
    + apply (loop_steps_ind (fun w _ => _cap (client w) <> None)
                            (fun _ => True));
        auto using Forall_True, started_holds_capture.
      intros w0 l i w' l' ev k Hcap _ _ Hb.
      rewrite <- (consumer_client i w0) in Hcap.
      split; [|now apply body_throughput_step].
      destruct (body_same_config _ _ _ _ _ _ _ Hb) as [Hc _].
      now rewrite Hc.
    + intros pre s post H.
      rewrite (loop_frame_count _ _ _ _ _ _ (started_holds_capture w true) H).
      reflexivity.
  - rewrite run_open_fails; simpl; repeat split; try constructor.
    intros [|s1 pre] s post H; discriminate.
Qed.

(** *** Pairing of findings and frames *)

Lemma body_paired_step w l i w' l' ev k :
  body w l i = (w', l', ev, k) ->
  paired_step {| step_before := w; step_locals_before := l;
                 step_input := i; step_kind := k; step_events := ev;
                 step_worker := w'; step_locals := l' |}.
Proof.
  intros H; unfold paired_step; simpl.
  apply body_inv in H
    as [(-> & _ & _ & -> & ->)
       |[(-> & _ & _ & -> & r & ev_read & Hrd & _ & ->)
        |(-> & _ & frame & frame' & ht & qt & ev_st & ev_fps & Hfr & _ & Hs
          & Ht & ->)]].
  - repeat constructor.
  - apply read_events in Hrd as [-> | ->]; repeat constructor.
  - exists frame, frame', ht, qt, ev_st, ([cap_read] ++ ev_st ++ ev_fps).
    repeat split; auto.
    + now rewrite <- !app_assoc.
    + repeat apply none_app.
      * repeat constructor.
      * eapply none_publication_finding, stages_events; eauto.
      * apply throughput_inv in Ht as (_ & [(_ & -> & _)|(_ & -> & _)]);
          repeat constructor.
Qed.

(** Claim C6.  Every iteration of every run is a [paired_step]: one that
    publishes a frame ends with [hazmatDet], [qrDet], [frameReady] in this
    order, the two lists and the frame being what the stage blocks computed
    from the frame read in the same iteration. *)
Theorem findings_paired_with_frame w opens t0 t1 ins :
  Forall paired_step (steps_of (run w opens t0 t1 ins)).
Proof.
  destruct opens; [|rewrite run_open_fails; constructor].
  rewrite steps_of_run_opens.
  apply (loop_steps_ind (fun _ _ => True) (fun _ => True));
    auto using Forall_True.
  intros w0 l i w' l' ev k _ _ _ Hb; split; auto.
  now apply body_paired_step.
Qed.

(** *** Failures inside a stage *)

Lemma run_hazmat_raises h frame left :
  hazmat_raises h frame left ->
  exists ev, run_hazmat h frame = (left, [], ev)
             /\ In (print "[hazmat] run error:") ev.
Proof.
  unfold run_hazmat; intros [H|(cids & confs & boxes & frame1 & H1 & H2)].
  - rewrite H; eexists; split; [reflexivity|simpl; auto].
  - rewrite H1, H2; eexists; split; [reflexivity|simpl; auto].
Qed.

Lemma run_qr_raises q frame left :
  qr_raises q frame left ->
  exists ev, run_qr q frame = (left, [], ev)
             /\ In (print "[qr] run error:") ev.
Proof.
  unfold run_qr; intros [H|(qr_res & frame1 & H1 & H2)].
  - rewrite H; eexists; split; [reflexivity|simpl; auto].
  - rewrite H1, H2; eexists; split; [reflexivity|simpl; auto].
Qed.

Lemma construct_hazmat_enabled w x w1 e ev h :
  construct_hazmat w true x = (w1, e, ev) -> hazmat w1 = Some h -> e = true.
Proof.
  unfold construct_hazmat; intros H Hh.
  repeat break_match; inv H; auto; simpl in Hh; congruence.
Qed.

Lemma construct_qr_enabled w x w1 e ev q :
  construct_qr w true x = (w1, e, ev) -> qr w1 = Some q -> e = true.
Proof.
  unfold construct_qr; intros H Hq.
  repeat break_match; inv H; auto; simpl in Hq; congruence.
Qed.

(** The clock and the capture decide whether an iteration gets to the
    stage blocks. *)
Lemma body_gets_frame w l i w' l' ev k frame :
  body w l i = (w', l', ev, k) ->
  _cap (client w) <> None ->
  too_early w l i = false ->
  cap_frame i = (true, Some frame) ->
  k = Published.
Proof.
  intros H Hcap Hdue Hfr.
  unfold body in H; fold (too_early w l i) in H; rewrite Hdue in H.
  unfold read in H; rewrite Hfr in H.
  destruct (_cap (client w)); [|congruence].
  repeat break_match; now inv H.
Qed.

Lemma body_hazmat_isolated w l i w' l' ev k :
  _cap (client w) <> None ->
  body w l i = (w', l', ev, k) ->
  hazmat_isolated {| step_before := w; step_locals_before := l;
                     step_input := i; step_kind := k; step_events := ev;
                     step_worker := w'; step_locals := l' |}.
Proof.
  intros Hcap Hb frame h left; unfold gets_frame; simpl.
  intros [Hdue Hfr] Hen Hh Hraise.
  pose proof (body_gets_frame _ _ _ _ _ _ _ _ Hb Hcap Hdue Hfr) as ->.
  split; [reflexivity|].
  apply body_inv in Hb as [(Hk & _)|[(Hk & _)|(_ & _ & Hb)]];
    try discriminate.
  destruct Hb
    as (frame0 & frame' & ht & qt & ev_st & ev_fps & Hfr0 & _ & Hs & Ht & ->).
  assert (frame0 = frame) by congruence; subst frame0.
  pose proof (stages_events _ _ _ _ _ _ Hs) as Hpub.
  apply stages_inv in Hs
    as (w1 & ev1 & ev2 & frame1 & ev3 & ev4 & H1 & H2 & H3 & H4 & ->).
  rewrite Hen in H1.
  pose proof (construct_qr_inv _ _ _ _ _ _ H2) as (_ & _ & Hsame & _).
  rewrite (construct_hazmat_enabled _ _ _ _ _ h H1) in H3 by congruence.
  unfold hazmat_pass in H3; rewrite Hh in H3.
  destruct (run_hazmat_raises _ _ _ Hraise) as (ev' & E & Hprint).
  rewrite E in H3; inv H3.
  exists frame', qt, ev4, ([cap_read] ++ (ev1 ++ ev2 ++ ev3 ++ ev4) ++ ev_fps).
  repeat split; auto.
  - now rewrite <- !app_assoc.
  - apply none_app; [repeat constructor|apply none_app].
    + now apply none_publication_finding.
    + apply throughput_inv in Ht as (_ & [(_ & -> & _)|(_ & -> & _)]);
        repeat constructor.
  - apply in_or_app; right; apply in_or_app; left.
    apply in_or_app; right; apply in_or_app; right.
    apply in_or_app; left; exact Hprint.
Qed.

Lemma body_qr_isolated w l i w' l' ev k :
  _cap (client w) <> None ->
  body w l i = (w', l', ev, k) ->
  qr_isolated {| step_before := w; step_locals_before := l;
                 step_input := i; step_kind := k; step_events := ev;
                 step_worker := w'; step_locals := l' |}.
Proof.
  intros Hcap Hb frame frame1 ht ev_h q left; unfold gets_frame; simpl.
  intros [Hdue Hfr] Hen Hq Hpass Hraise.
  pose proof (body_gets_frame _ _ _ _ _ _ _ _ Hb Hcap Hdue Hfr) as ->.
  split; [reflexivity|].
  apply body_inv in Hb as [(Hk & _)|[(Hk & _)|(_ & _ & Hb)]];
    try discriminate.
  destruct Hb
    as (frame0 & frame' & ht0 & qt & ev_st & ev_fps & Hfr0 & _ & Hs & Ht & ->).
  assert (frame0 = frame) by congruence; subst frame0.
  pose proof (stages_events _ _ _ _ _ _ Hs) as Hpub.
  apply stages_inv in Hs
    as (w1 & ev1 & ev2 & frame2 & ev3 & ev4 & H1 & H2 & H3 & H4 & ->).
  rewrite Hpass in H3; inv H3.
  rewrite Hen in H2.
  rewrite (construct_qr_enabled _ _ _ _ _ q H2 Hq) in H4.
  unfold qr_pass in H4; rewrite Hq in H4.
  destruct (run_qr_raises _ _ _ Hraise) as (ev' & E & Hprint).
  rewrite E in H4; inv H4.
  exists ([cap_read] ++ (ev1 ++ ev2 ++ ev3 ++ ev4) ++ ev_fps).
  repeat split; auto.
  - now rewrite <- !app_assoc.
  - apply none_app; [repeat constructor|apply none_app].
    + now apply none_publication_finding.
    + apply throughput_inv in Ht as (_ & [(_ & -> & _)|(_ & -> & _)]);
        repeat constructor.
  - apply in_or_app; right; apply in_or_app; left.
    apply in_or_app; right; apply in_or_app; right.
    apply in_or_app; right; exact Hprint.
Qed.

(** Claim C2, amended.  In every run, every iteration that gets a frame
    and in which an enabled and constructed stage raises in [detect] or
    [annotate] has the error caught and printed, publishes an empty list
    for that stage, and goes through to the publication of the frame; the
    stage does not replace the frame in flight, so the blocks after it and
    the publication get the array the stage was handed, holding what the
    failed call left in it ([hazmat_isolated], [qr_isolated]).  As long as
    no stop is requested the loop executes every iteration, whatever the
    stages do. *)
Theorem stage_failure_isolated w opens t0 t1 ins :
  Forall (fun s => hazmat_isolated s /\ qr_isolated s)
         (steps_of (run w opens t0 t1 ins))
  /\ (opens = true ->
      Forall (fun i => consumer_stop i = false) ins ->
      List.length (steps_of (run w opens t0 t1 ins)) = List.length ins
      /\ exists w' l', final (run w opens t0 t1 ins) = Streaming w' l').
Proof.
  split.
  - destruct opens; [|rewrite run_open_fails; constructor].
    rewrite steps_of_run_opens.
    apply (loop_steps_ind (fun w _ => _cap (client w) <> None)
                          (fun _ => True));
      auto using Forall_True, started_holds_capture.
    intros w0 l i w' l' ev k Hcap _ _ Hb.
    rewrite <- (consumer_client i w0) in Hcap.
    split.
    + destruct (body_same_config _ _ _ _ _ _ _ Hb) as [Hc _].
      now rewrite Hc.
    + split; [now apply body_hazmat_isolated|now apply body_qr_isolated].
  - intros -> Hins.
    destruct (loop_keeps_running ins (started w true) (first_locals t0 t1))
      as (steps & w' & l' & Hl & Hlen); auto.
    rewrite run_opens, Hl; simpl; eauto.
Qed.

(** *** Calls on the stage slots *)

Lemma throughput_events l t l' ev :
  throughput l t = (l', ev) ->
  none is_hazmat_call ev /\ none is_qr_call ev /\ none is_finding_or_frame ev.
Proof.
  unfold throughput; intros H; destruct (_ <=? _)%float; inv H;
    repeat split; repeat constructor.
Qed.

(** A frame iteration, block by block. *)
Lemma published_inv w l i w' l' ev :
  body w l i = (w', l', ev, Published) ->
  exists frame w1 ev1 ev2 frame1 ht ev3 frame' qt ev4 ev_fps,
    cap_frame i = (true, Some frame)
    /\ construct_hazmat w (_enable_hazmat w) (world i)
       = (w1, _enable_hazmat w', ev1)
    /\ construct_qr w1 (_enable_qr w) (world i) = (w', _enable_qr w', ev2)
    /\ hazmat_pass w' (_enable_hazmat w') frame = (frame1, ht, ev3)
    /\ qr_pass w' (_enable_qr w') frame1 = (frame', qt, ev4)
    /\ ev = ([cap_read] ++ (ev1 ++ ev2 ++ ev3 ++ ev4) ++ ev_fps)
              ++ [hazmatDet ht; qrDet qt; frameReady frame']
    /\ (none is_hazmat_call ev2 /\ none is_hazmat_call ev4
        /\ none is_hazmat_call ev_fps)
    /\ (none is_qr_call ev1 /\ none is_qr_call ev3 /\ none is_qr_call ev_fps)
    /\ none is_finding_or_frame
         ([cap_read] ++ (ev1 ++ ev2 ++ ev3 ++ ev4) ++ ev_fps).
Proof.
  intros H; apply body_inv in H
    as [(E & _)|[(E & _)
                |(_ & _ & frame & frame' & ht & qt & ev_st & ev_fps & Hfr & _
                  & Hs & Ht & ->)]]; try discriminate.
  apply stages_inv in Hs
    as (w1 & ev1 & ev2 & frame1 & ev3 & ev4 & H1 & H2 & H3 & H4 & ->).
  exists frame, w1, ev1, ev2, frame1, ht, ev3, frame', qt, ev4, ev_fps.
  pose proof (construct_hazmat_inv _ _ _ _ _ _ H1) as (_ & _ & _ & _ & A1 & A2).
  pose proof (construct_qr_inv _ _ _ _ _ _ H2) as (_ & _ & _ & _ & B1 & B2).
  pose proof (hazmat_pass_events _ _ _ _ _ _ H3) as (C1 & C2 & _).
  pose proof (qr_pass_events _ _ _ _ _ _ H4) as (D1 & D2 & _).
  pose proof (throughput_events _ _ _ _ Ht) as (E1 & E2 & E3).
  repeat split; auto.
  - now rewrite <- !app_assoc.
  - repeat apply none_app; auto using none_publication_finding.
    repeat constructor.
Qed.

(** An iteration without a frame. *)
Lemma unpublished_inv w l i w' l' ev k :
  body w l i = (w', l', ev, k) -> k <> Published ->
  w' = w /\ l' = l /\ none is_hazmat_call ev /\ none is_qr_call ev
  /\ none is_publication ev.
Proof.
  intros H Hk; apply body_inv in H
    as [(_ & _ & -> & -> & ->)
       |[(_ & _ & -> & -> & r & ev_read & Hrd & _ & ->)|(E & _)]];
    try congruence.
  - repeat split; repeat constructor.
  - apply read_events in Hrd as [-> | ->];
      repeat split; repeat constructor.
Qed.

(** The findings and frame events of a frame iteration are its last
    three. *)
Lemma published_findings ev ht qt frame' e :
  none is_finding_or_frame ev ->
  is_finding_or_frame e = true ->
  In e (ev ++ [hazmatDet ht; qrDet qt; frameReady frame']) ->
  e = hazmatDet ht \/ e = qrDet qt \/ e = frameReady frame'.
Proof.
  intros Hn He Hin; apply in_app_or in Hin as [Hin|Hin].
  - exfalso; eapply none_not_In; eauto.
  - simpl in Hin; intuition.
Qed.

Lemma none_hazmat_factory tr :
  none is_hazmat_call tr -> none is_hazmat_factory_call tr.
Proof.
  unfold none; intros H; eapply Forall_impl; [|exact H].
  now intros [] He.
Qed.

Lemma none_qr_factory tr :
  none is_qr_call tr -> none is_qr_factory_call tr.
Proof.
  unfold none; intros H; eapply Forall_impl; [|exact H].
  now intros [] He.
Qed.

(** *** A stage without a factory *)





(** *** A factory that raises *)

Lemma body_hazmat_off w l i w' l' ev k :
  _enable_hazmat w = false ->
  body w l i = (w', l', ev, k) ->
  _enable_hazmat w' = false /\ none is_hazmat_call ev.
Proof.
  intros Hoff Hb.
  destruct k;
    try (destruct (unpublished_inv _ _ _ _ _ _ _ Hb) as (-> & -> & N1 & _);
         [discriminate|]; auto).
  apply published_inv in Hb
    as (frame & w1 & ev1 & ev2 & frame1 & ht & ev3 & frame' & qt & ev4 & ev_fps
        & Hfr & H1 & H2 & H3 & H4 & -> & (A1 & A2 & A3) & _).
  rewrite Hoff in H1; unfold construct_hazmat in H1; inv H1.
  rewrite <- H5 in H3; simpl in H3; inv H3.
  split; auto.
  repeat apply none_app; auto; repeat constructor.
Qed.

Lemma body_qr_off w l i w' l' ev k :
  _enable_qr w = false ->
  body w l i = (w', l', ev, k) ->
  _enable_qr w' = false /\ none is_qr_call ev.
Proof.
  intros Hoff Hb.
  destruct k;
    try (destruct (unpublished_inv _ _ _ _ _ _ _ Hb) as (-> & -> & _ & N2 & _);
         [discriminate|]; auto).
  apply published_inv in Hb
    as (frame & w1 & ev1 & ev2 & frame1 & ht & ev3 & frame' & qt & ev4 & ev_fps
        & Hfr & H1 & H2 & H3 & H4 & -> & _ & (A1 & A2 & A3) & _).
  rewrite Hoff in H2; unfold construct_qr in H2; inv H2.
  rewrite <- H5 in H4; simpl in H4; inv H4.
  split; auto.
  repeat apply none_app; auto; repeat constructor.
Qed.

(** While the flag is off and the Consumer does not switch it on, no
    iteration touches the hazmat slot. *)
Lemma loop_hazmat_off ins w l :
  _enable_hazmat w = false ->
  Forall (fun i => consumer_hazmat i <> Some true) ins ->
  Forall (fun s => _enable_hazmat (step_worker s) = false
                   /\ none is_hazmat_call (step_events s))
         (fst (fst (loop w l ins))).
Proof.
  intros Hoff Hins.
  apply (loop_steps_ind (fun w _ => _enable_hazmat w = false)
                        (fun i => consumer_hazmat i <> Some true)); auto.
  intros w0 l0 i w' l' ev k Hoff0 Hi _ Hb; simpl.
  assert (Hoff1 : _enable_hazmat (consumer i w0) = false).
  { rewrite consumer_enable_hazmat.
    destruct (consumer_hazmat i) as [[|]|]; congruence. }
  destruct (body_hazmat_off _ _ _ _ _ _ _ Hoff1 Hb); auto.
Qed.

Lemma loop_qr_off ins w l :
  _enable_qr w = false ->
  Forall (fun i => consumer_qr i <> Some true) ins ->
  Forall (fun s => _enable_qr (step_worker s) = false
                   /\ none is_qr_call (step_events s))
         (fst (fst (loop w l ins))).
Proof.
  intros Hoff Hins.
  apply (loop_steps_ind (fun w _ => _enable_qr w = false)
                        (fun i => consumer_qr i <> Some true)); auto.
  intros w0 l0 i w' l' ev k Hoff0 Hi _ Hb; simpl.
  assert (Hoff1 : _enable_qr (consumer i w0) = false).
  { rewrite consumer_enable_qr.
    destruct (consumer_qr i) as [[|]|]; congruence. }
  destruct (body_qr_off _ _ _ _ _ _ _ Hoff1 Hb); auto.
Qed.


Lemma loop_first_step w l i ins s rest :
  fst (fst (loop w l (i :: ins))) = s :: rest ->
  body (step_before s) (step_locals_before s) i
  = (step_worker s, step_locals s, step_events s, step_kind s)
  /\ step_input s = i
  /\ rest = fst (fst (loop (step_worker s) (step_locals s) ins)).
Proof.
  intros H.
  destruct (_running (consumer i w)) eqn:Hr.
  - destruct (body (consumer i w) l i) as [[[w' l'] ev] k] eqn:Hb.
    rewrite (loop_step _ _ _ _ _ _ _ _ Hr Hb) in H; simpl in H.
    inv H; simpl; auto.
  - rewrite (loop_stop _ _ _ _ Hr) in H; discriminate.
Qed.

Lemma hazmat_factory_failure w l i ins s rest :
  fst (fst (loop w l (i :: ins))) = s :: rest ->
  hazmat_factory_raises s ->
  _enable_hazmat (step_worker s) = false
  /\ hazmat (step_worker s) = None
  /\ count is_hazmat_factory_call (step_events s) = 1%nat
  /\ (exists ev qt frame',
         step_events s = ev ++ [hazmatDet []; qrDet qt; frameReady frame']
         /\ none is_finding_or_frame ev)
  /\ (Forall (fun j => consumer_hazmat j <> Some true) ins ->
      Forall (fun s' => _enable_hazmat (step_worker s') = false
                        /\ none is_hazmat_call (step_events s')) rest).
Proof.
  intros Hl (Hk & Hen & Hslot & factory & Hfac & Hraise).
  apply loop_first_step in Hl as (Hb & Hi & ->).
  rewrite Hk in Hb; rewrite Hi in *.
  apply published_inv in Hb
    as (frame & w1 & ev1 & ev2 & frame1 & ht & ev3 & frame' & qt & ev4 & ev_fps
        & Hfr & H1 & H2 & H3 & H4 & Hev & (A1 & A2 & A3) & _ & F).
  unfold construct_hazmat in H1.
  rewrite Hen, Hslot, Hfac, Hraise in H1.
  injection H1 as Hw1 Hflag Hev1.
  pose proof (construct_qr_inv _ _ _ _ _ _ H2) as (_ & _ & Hslot' & _).
  rewrite <- Hflag in H3; simpl in H3.
  injection H3 as Hf1 Hht Hev3.
  subst ev1 ev3 ht frame1.
  assert (Hoff : _enable_hazmat (step_worker s) = false) by auto.
  repeat split; auto.
  - rewrite Hslot', <- Hw1; exact Hslot.
  - rewrite Hev, !count_app.
    rewrite (none_count _ ev2), (none_count _ ev4), (none_count _ ev_fps)
      by auto using none_hazmat_factory.
    reflexivity.
  - exists ([cap_read]
              ++ (([call_hazmat_factory; print "[hazmat] init error:"]
                     ++ ev2 ++ [] ++ ev4) ++ ev_fps)), qt, frame'.
    split; [exact Hev|exact F].
  - intros Hins; now apply loop_hazmat_off.
Qed.

Lemma qr_factory_failure w l i ins s rest :
  fst (fst (loop w l (i :: ins))) = s :: rest ->
  qr_factory_raises s ->
  _enable_qr (step_worker s) = false
  /\ qr (step_worker s) = None
  /\ count is_qr_factory_call (step_events s) = 1%nat
  /\ (exists ev ht frame',
         step_events s = ev ++ [hazmatDet ht; qrDet []; frameReady frame']
         /\ none is_finding_or_frame ev)
  /\ (Forall (fun j => consumer_qr j <> Some true) ins ->
      Forall (fun s' => _enable_qr (step_worker s') = false
                        /\ none is_qr_call (step_events s')) rest).
Proof.
  intros Hl (Hk & Hen & Hslot & factory & Hfac & Hraise).
  apply loop_first_step in Hl as (Hb & Hi & ->).
  rewrite Hk in Hb; rewrite Hi in *.
  apply published_inv in Hb
    as (frame & w1 & ev1 & ev2 & frame1 & ht & ev3 & frame' & qt & ev4 & ev_fps
        & Hfr & H1 & H2 & H3 & H4 & Hev & _ & (A1 & A2 & A3) & F).
  pose proof (construct_hazmat_inv _ _ _ _ _ _ H1)
    as ((_ & _ & _ & _ & Hfac1) & _ & Hslot1 & _).
  unfold construct_qr in H2.
  rewrite Hen, Hslot1, Hslot, Hfac1, Hfac, Hraise in H2.
  injection H2 as Hw' Hflag Hev2.
  rewrite <- Hflag in H4; simpl in H4.
  injection H4 as Hf' Hqt Hev4.
  subst ev2 ev4 qt.
  assert (Hoff : _enable_qr (step_worker s) = false) by auto.
  repeat split; auto.
  - rewrite <- Hw'; simpl; congruence.
  - rewrite Hev, !count_app.
    rewrite (none_count _ ev1), (none_count _ ev3), (none_count _ ev_fps)
      by auto using none_qr_factory.
    reflexivity.
  - exists ([cap_read]
              ++ ((ev1 ++ [call_qr_factory; print "[qr] init error:"]
                     ++ ev3 ++ []) ++ ev_fps)), ht, frame'.
    split; [exact Hev|exact F].
  - intros Hins; now apply loop_qr_off.
Qed.

(** Claim C5.  Let [s] be the first of the iterations the loop executes
    from any state, and let the factory of a stage raise in it.  Then [s]
    calls that factory exactly once, leaves the stage's flag off and its
    slot empty, and goes on to publish an empty list for the stage and the
    frame; and in the iterations after [s], as long as the Consumer does not
    switch the flag on again, the flag is off and neither the factory nor
    the detector of the stage is called. *)
Theorem factory_failure_disables w l i ins s rest :
  fst (fst (loop w l (i :: ins))) = s :: rest ->
  (hazmat_factory_raises s ->
   _enable_hazmat (step_worker s) = false
   /\ hazmat (step_worker s) = None
   /\ count is_hazmat_factory_call (step_events s) = 1%nat
   /\ (exists ev qt frame',
          step_events s = ev ++ [hazmatDet []; qrDet qt; frameReady frame']
          /\ none is_finding_or_frame ev)
   /\ (Forall (fun j => consumer_hazmat j <> Some true) ins ->
       Forall (fun s' => _enable_hazmat (step_worker s') = false
                         /\ none is_hazmat_call (step_events s')) rest))
  /\ (qr_factory_raises s ->
      _enable_qr (step_worker s) = false
      /\ qr (step_worker s) = None
      /\ count is_qr_factory_call (step_events s) = 1%nat
      /\ (exists ev ht frame',
             step_events s = ev ++ [hazmatDet ht; qrDet []; frameReady frame']
             /\ none is_finding_or_frame ev)
      /\ (Forall (fun j => consumer_qr j <> Some true) ins ->
          Forall (fun s' => _enable_qr (step_worker s') = false
                            /\ none is_qr_call (step_events s')) rest)).
Proof.
  intros Hl; split; intros Hraise.
  - eapply hazmat_factory_failure; eauto.
  - eapply qr_factory_failure; eauto.
Qed.

(** *** The client *)

(** [close] releases the capture the client holds, if it holds one, and
    leaves the client inert: a [read] after it fails with no frame and
    without a call on cv2, and another [close] does nothing. *)
Theorem closed_client_is_inert c r :
  count is_release (snd (close c)) = held c
  /\ _cap (fst (close c)) = None
  /\ read (fst (close c)) r = ((false, None), [])
  /\ close (fst (close c)) = (fst (close c), []).
Proof.
  unfold close, read, held; destruct (_cap c) eqn:E; simpl; auto.
  rewrite E; auto.
Qed.

Lemma client_calls_held ops : forall c,
  (count is_release (snd (client_calls c ops))
   + held (fst (client_calls c ops))
   <= List.length (filter is_do_open ops) + held c)%nat.
Proof.
  induction ops as [|op ops IH]; intros c; simpl; [lia|].
  destruct (client_call c op) as [c1 ev1] eqn:E1.
  specialize (IH c1).
  destruct (client_calls c1 ops) as [c2 ev2]; simpl in *.
  rewrite count_app.
  destruct op as [opens|r|]; simpl in *.
  - inv E1; simpl in *. unfold held in *; simpl in *.
    destruct (_cap c); lia.
  - inv E1. unfold read.
    destruct (_cap c1), r as [[|] fr]; simpl; lia.
  - unfold close in E1; unfold held in *.
    destruct (_cap c) eqn:Ec; inv E1; simpl in *; rewrite ?Ec in *; lia.
Qed.

(** Over any sequence of calls on a client that starts without a capture,
    the releases, plus the capture still held at the end, never exceed the
    calls of [open]. *)
Theorem client_releases_bounded url ops :
  (count is_release (snd (client_calls (client_init url) ops))
   + held (fst (client_calls (client_init url) ops))
   <= List.length (filter is_do_open ops))%nat.
Proof.
  pose proof (client_calls_held ops (client_init url)) as H.
  unfold held at 2 in H; simpl in H; lia.
Qed.

(** A second [open] without a [close] in between replaces the capture
    without releasing it: whatever calls of [read] and [close] follow, one
    release is all there is for the two captures. *)
Theorem reopen_drops_capture url b1 b2 ops :
  Forall (fun op => is_do_open op = false) ops ->
  (count is_release
         (snd (client_calls (client_init url)
                            (do_open b1 :: do_open b2 :: ops))) <= 1)%nat.
Proof.
  intros Hops.
  assert (Hgen : forall c, held c = 1%nat ->
                 (count is_release (snd (client_calls c ops)) <= 1)%nat).
  { intros c Hc.
    pose proof (client_calls_held ops c) as H.
    assert (E : filter is_do_open ops = []).
    { clear -Hops; induction Hops as [|op ops Hop _ IH]; simpl; auto.
      now rewrite Hop. }
    rewrite E in H; simpl in H; lia. }
  simpl.
  specialize (Hgen (fst (open (fst (open (client_init url) b1)) b2)) eq_refl).
  destruct (client_calls _ ops) as [c2 ev2]; simpl in *; exact Hgen.
Qed.

(** *** The events of a run *)

Lemma stages_plain w x frame w' r ev :
  stages w x frame = (w', r, ev) -> none is_opened ev /\ none is_release ev.
Proof.
  destruct r as [[frame' ht] qt]; intros H.
  apply stages_inv in H
    as (w1 & ev1 & ev2 & f1 & ev3 & ev4 & H1 & H2 & H3 & H4 & ->).
  assert (A1 : none is_opened ev1 /\ none is_release ev1)
    by (unfold construct_hazmat, none in *; repeat break_match; inv H1;
        split; repeat constructor).
  assert (A2 : none is_opened ev2 /\ none is_release ev2)
    by (unfold construct_qr, none in *; repeat break_match; inv H2;
        split; repeat constructor).
  assert (A3 : none is_opened ev3 /\ none is_release ev3)
    by (unfold hazmat_pass, run_hazmat, none in *; repeat break_match; inv H3;
        split; repeat constructor).
  assert (A4 : none is_opened ev4 /\ none is_release ev4)
    by (unfold qr_pass, run_qr, none in *; repeat break_match; inv H4;
        split; repeat constructor).
  destruct A1, A2, A3, A4; split; repeat apply none_app; auto.
Qed.

Lemma body_plain w l i w' l' ev k :
  body w l i = (w', l', ev, k) -> none is_opened ev /\ none is_release ev.
Proof.
  intros H; apply body_inv in H
    as [(_ & _ & _ & _ & ->)
       |[(_ & _ & _ & _ & r & ev_read & Hrd & _ & ->)
        |(_ & _ & frame & frame' & ht & qt & ev_st & ev_fps & _ & _ & Hs
          & Ht & ->)]].
  - split; repeat constructor.
  - apply read_events in Hrd as [-> | ->]; split; repeat constructor.
  - apply stages_plain in Hs as [S1 S2].
    assert (T : none is_opened ev_fps /\ none is_release ev_fps)
      by (unfold throughput in Ht; destruct (_ <=? _)%float; inv Ht;
          split; repeat constructor).
    destruct T; split; repeat apply none_app; auto; repeat constructor.
Qed.

Lemma events_of_cons s steps :
  events_of (s :: steps) = step_events s ++ events_of steps.
Proof. reflexivity. Qed.

Lemma loop_plain ins : forall w l,
  none is_opened (events_of (fst (fst (loop w l ins))) ++ snd (loop w l ins))
  /\ none is_release (events_of (fst (fst (loop w l ins)))).
Proof.
  induction ins as [|i ins IH]; intros w l; [split; constructor|].
  destruct (_running (consumer i w)) eqn:Hr.
  - destruct (body (consumer i w) l i) as [[[w' l'] ev] k] eqn:Hb.
    rewrite (loop_step _ _ _ _ _ _ _ _ Hr Hb); cbn [fst snd].
    rewrite events_of_cons, <- app_assoc.
    destruct (IH w' l') as [I1 I2].
    destruct (body_plain _ _ _ _ _ _ _ Hb) as [B1 B2].
    split; apply none_app; auto.
  - rewrite (loop_stop _ _ _ _ Hr); cbn [fst snd]; simpl.
    split; [|constructor].
    unfold close; destruct (_cap _); repeat constructor.
Qed.

(** [opened] is the first event of every run and is not emitted again; it
    carries the outcome of opening the stream. *)
Theorem opened_first_and_once w opens t0 t1 ins :
  exists msg rest,
    trace (run w opens t0 t1 ins) = opened opens msg :: rest
    /\ none is_opened rest.
Proof.
  destruct opens.
  - rewrite run_opens; unfold trace.
    destruct (loop (started w true) (first_locals t0 t1) ins)
      as [[steps p] evc] eqn:Hl.
    exists "opened", (events_of steps ++ evc); split; [reflexivity|].
    pose proof (loop_plain ins (started w true) (first_locals t0 t1)) as [H _].
    now rewrite Hl in H.
  - rewrite run_open_fails; simpl.
    eexists; exists []; split; [reflexivity|constructor].
Qed.

(** *** Stopping *)

(** [stop()] and a run whose stream opened.  A [stop()] that comes once
    [run] has set [_running], before any test at the head of the loop,
    ends the loop at that test: the iterations before it are the run,
    nothing of the inputs after it is looked at, and the run ends by
    releasing the capture.  A [stop()] that comes before [run] has set
    [_running] is lost: [run] sets the flag again, and the run is the run
    of a worker that was never stopped. *)
Theorem stop_ends_run w t0 t1 pre i post :
  Forall (fun j => consumer_stop j = false) pre ->
  consumer_stop i = true ->
  (steps_of (run w true t0 t1 (pre ++ i :: post))
   = steps_of (run w true t0 t1 pre)
   /\ trace (run w true t0 t1 (pre ++ i :: post))
      = trace (run w true t0 t1 pre) ++ [cap_release]
   /\ exists w',
       final (run w true t0 t1 (pre ++ i :: post)) = Stopped w'
       /\ _cap (client w') = None /\ _running w' = false)
  /\ (forall opens ins,
        run (stop w) opens t0 t1 ins = run w opens t0 t1 ins)
  /\ (forall ins,
        Forall (fun j => consumer_stop j = false) ins ->
        List.length (steps_of (run (stop w) true t0 t1 ins))
        = List.length ins
        /\ exists w' l',
            final (run (stop w) true t0 t1 ins) = Streaming w' l'
            /\ _running w' = true).
Proof.
  intros Hpre Hi.
  split; [|split; [reflexivity|]].
  2:{ intros ins Hins.
      destruct (loop_keeps_running ins (started (stop w) true)
                                   (first_locals t0 t1) eq_refl Hins)
        as (steps & w' & l' & Hl & Hlen).
      pose proof (loop_streaming_running _ _ _ _ _ _ _ Hl) as Hrun.
      rewrite run_opens, Hl; cbn [steps_of final].
      split; [exact Hlen|].
      exists w', l'; split; [reflexivity|exact Hrun]. }
  destruct (loop_keeps_running pre (started w true) (first_locals t0 t1)
                               eq_refl Hpre)
    as (steps & w' & l' & Hl & _).
  destruct (loop_streaming _ _ _ _ _ _ _ Hl) as [Hc _].
  assert (Hr : _running (consumer i w') = false)
    by (rewrite consumer_running, Hi; apply andb_false_r).
  destruct (consumer_same_config i w') as (Hc' & _).
  assert (Hclose : close (client (consumer i w'))
                   = ({| stream_url := stream_url (client (consumer i w'));
                         timeout := timeout (client (consumer i w'));
                         _cap := None |}, [cap_release]))
    by (unfold close; rewrite Hc', Hc; reflexivity).
  rewrite !run_opens, (loop_app _ _ _ (i :: post) _ _ _ _ Hl), Hl.
  rewrite (loop_stop _ _ _ _ Hr), Hclose; cbn [fst snd steps_of trace final].
  rewrite !app_nil_r.
  split; [reflexivity|split; [reflexivity|]].
  eexists; split; [reflexivity|split; reflexivity || exact Hr].
Qed.

(** *** Frames in, frames out *)

Lemma none_weaken (p q : Event -> bool) tr :
  (forall e, q e = true -> p e = true) -> none p tr -> none q tr.
Proof.
  unfold none; intros Hqp H; eapply Forall_impl; [|exact H].
  intros e He; simpl in *.
  destruct (q e) eqn:E; auto.
  apply Hqp in E; congruence.
Qed.

Lemma body_publications w l i w' l' ev k :
  body w l i = (w', l', ev, k) ->
  let n := match k with Published => 1%nat | _ => 0%nat end in
  count is_frame ev = n /\ count is_hazmat_det ev = n
  /\ count is_qr_det ev = n.
Proof.
  intros Hb; apply body_paired_step in Hb; unfold paired_step in Hb;
    simpl in Hb.
  destruct k.
  1,2: repeat split; apply none_count;
    (eapply none_weaken; [|exact Hb]); now intros [].
  destruct Hb as (frame & frame' & ht & qt & ev_st & ev0 & _ & _ & -> & Hn).
  repeat split; rewrite count_app;
    (rewrite none_count;
     [reflexivity|eapply none_weaken; [|exact Hn]; now intros []]).
Qed.

Lemma loop_publications ins : forall w l (p : Event -> bool),
  (p = is_frame \/ p = is_hazmat_det \/ p = is_qr_det) ->
  count p (events_of (fst (fst (loop w l ins))) ++ snd (loop w l ins))
  = List.length (filter is_published (fst (fst (loop w l ins)))).
Proof.
  induction ins as [|i ins IH]; intros w l p Hp; [reflexivity|].
  destruct (_running (consumer i w)) eqn:Hr.
  - destruct (body (consumer i w) l i) as [[[w' l'] ev] k] eqn:Hb.
    rewrite (loop_step _ _ _ _ _ _ _ _ Hr Hb); cbn [fst snd].
    rewrite events_of_cons, <- app_assoc, count_app, (IH w' l' p Hp).
    cbn [step_events filter].
    destruct (body_publications _ _ _ _ _ _ _ Hb) as (C1 & C2 & C3).
    assert (E : count p ev = match k with Published => 1%nat | _ => 0%nat end)
      by (destruct Hp as [->|[->| ->]]; assumption).
    rewrite E; unfold is_published at 1; cbn [step_kind].
    destruct k; reflexivity.
  - rewrite (loop_stop _ _ _ _ Hr); cbn [fst snd]; simpl.
    unfold close; destruct (_cap _); simpl;
      destruct Hp as [->|[->| ->]]; reflexivity.
Qed.

Lemma construct_hazmat_no_read w e x w' e' ev :
  construct_hazmat w e x = (w', e', ev) -> none is_cap_read ev.
Proof.
  unfold construct_hazmat, none; intros H.
  repeat break_match; inv H; repeat constructor.
Qed.

Lemma construct_qr_no_read w e x w' e' ev :
  construct_qr w e x = (w', e', ev) -> none is_cap_read ev.
Proof.
  unfold construct_qr, none; intros H.
  repeat break_match; inv H; repeat constructor.
Qed.

Lemma hazmat_pass_no_read w e frame frame' texts ev :
  hazmat_pass w e frame = (frame', texts, ev) -> none is_cap_read ev.
Proof.
  unfold hazmat_pass, run_hazmat, none; intros H.
  repeat break_match; inv H; repeat constructor.
Qed.

Lemma qr_pass_no_read w e frame frame' texts ev :
  qr_pass w e frame = (frame', texts, ev) -> none is_cap_read ev.
Proof.
  unfold qr_pass, run_qr, none; intros H.
  repeat break_match; inv H; repeat constructor.
Qed.

(** With the capture held, an iteration calls the capture's [read] once
    when the next frame is due and not at all when it is not, and the call
    returns a frame exactly in the iterations that go through to the
    publications. *)
Lemma body_frames_read w l i w' l' ev k :
  _cap (client w) <> None ->
  body w l i = (w', l', ev, k) ->
  count is_cap_read ev = (if too_early w l i then 0 else 1)%nat
  /\ List.length
       (frames_read {| step_before := w; step_locals_before := l;
                       step_input := i; step_kind := k; step_events := ev;
                       step_worker := w'; step_locals := l' |})
     = match k with Published => 1%nat | _ => 0%nat end.
Proof.
  intros Hcap H; unfold frames_read; cbn [step_events step_input].
  apply body_inv in H
    as [(-> & -> & _ & _ & ->)
       |[(-> & -> & _ & _ & r & ev_read & Hrd & Hfail & ->)
        |(-> & -> & frame & frame' & ht & qt & ev_st & ev_fps & Hfr & _ & Hs
          & Ht & ->)]].
  - split; reflexivity.
  - unfold read in Hrd.
    destruct (_cap (client w)); [|congruence].
    destruct (cap_frame i) as [[|] [fr|]]; inv Hrd;
      try (split; reflexivity).
    destruct Hfail; discriminate.
  - rewrite Hfr; split; [|reflexivity].
    apply stages_inv in Hs
      as (w1 & ev1 & ev2 & f1 & ev3 & ev4 & H1 & H2 & H3 & H4 & ->).
    apply construct_hazmat_no_read in H1.
    apply construct_qr_no_read in H2.
    apply hazmat_pass_no_read in H3.
    apply qr_pass_no_read in H4.
    rewrite count_app, (none_count is_cap_read (_ ++ _)); [reflexivity|].
    repeat apply none_app; auto.
    + apply throughput_inv in Ht as (_ & [(_ & -> & _)|(_ & -> & _)]);
        repeat constructor.
    + repeat constructor.
Qed.

Lemma frames_read_published steps :
  Forall (fun s => List.length (frames_read s)
                   = if is_published s then 1%nat else 0%nat) steps ->
  List.length (flat_map frames_read steps)
  = List.length (filter is_published steps).
Proof.
  induction 1 as [|s steps Hs _ IH]; [reflexivity|].
  cbn [flat_map filter]; rewrite length_app, Hs, IH.
  destruct (is_published s); reflexivity.
Qed.

(** In every run, an iteration calls the capture's [read] once when the
    next frame is due and not at all when it is not, and emits
    [frameReady], [hazmatDet] and [qrDet] once each when the call returned
    a frame and not at all otherwise.  So over the run the three
    publications are as many as the frames the capture returned: no frame
    that was read is dropped, and none is published twice. *)
Theorem one_publication_per_frame w opens t0 t1 ins :
  let steps := steps_of (run w opens t0 t1 ins) in
  let n := List.length (flat_map frames_read steps) in
  Forall (fun s =>
            count is_cap_read (step_events s)
            = (if too_early (step_before s) (step_locals_before s)
                            (step_input s)
               then 0 else 1)%nat
            /\ count is_frame (step_events s) = List.length (frames_read s)
            /\ count is_hazmat_det (step_events s)
               = List.length (frames_read s)
            /\ count is_qr_det (step_events s)
               = List.length (frames_read s))
         steps
  /\ count is_frame (trace (run w opens t0 t1 ins)) = n
  /\ count is_hazmat_det (trace (run w opens t0 t1 ins)) = n
  /\ count is_qr_det (trace (run w opens t0 t1 ins)) = n.
Proof.
  destruct opens;
    [|rewrite run_open_fails; cbn; repeat split; constructor].
  assert (Hall : Forall (fun s =>
                   (count is_cap_read (step_events s)
                    = (if too_early (step_before s) (step_locals_before s)
                                    (step_input s)
                       then 0 else 1)%nat
                    /\ count is_frame (step_events s)
                       = List.length (frames_read s)
                    /\ count is_hazmat_det (step_events s)
                       = List.length (frames_read s)
                    /\ count is_qr_det (step_events s)
                       = List.length (frames_read s))
                   /\ List.length (frames_read s)
                      = if is_published s then 1%nat else 0%nat)
                 (steps_of (run w true t0 t1 ins))).
  { rewrite steps_of_run_opens.
    apply (loop_steps_ind (fun w _ => _cap (client w) <> None)
                          (fun _ => True));
      auto using Forall_True, started_holds_capture.
    intros w0 l i w' l' ev k Hcap _ _ Hb.
    rewrite <- (consumer_client i w0) in Hcap.
    split.
    - destruct (body_same_config _ _ _ _ _ _ _ Hb) as [Hc _].
      now rewrite Hc.
    - destruct (body_frames_read _ _ _ _ _ _ _ Hcap Hb) as [Hr Hn].
      destruct (body_publications _ _ _ _ _ _ _ Hb) as (C1 & C2 & C3).
      cbn [step_events]; rewrite Hn.
      repeat split; auto.
      unfold is_published; cbn [step_kind]; destruct k; reflexivity. }
  cbv zeta.
  rewrite (frames_read_published (steps_of (run w true t0 t1 ins)))
    by (eapply Forall_impl; [|exact Hall]; now intros s [_ H]).
  split; [eapply Forall_impl; [|exact Hall]; now intros s [H _]|].
  clear Hall.
  rewrite run_opens; unfold trace, steps_of.
  pose proof (loop_publications ins (started w true) (first_locals t0 t1))
    as H.
  destruct (loop (started w true) (first_locals t0 t1) ins)
    as [[steps p] evc]; cbn [fst snd] in H.
  repeat split; rewrite count_app; fold (events_of steps).
  - rewrite (H is_frame); auto.
  - rewrite (H is_hazmat_det); auto.
  - rewrite (H is_qr_det); auto.
Qed.

(** With both flags off a frame goes out as it came in, with two empty
    lists and no call of a factory or a detector. *)
Theorem frames_pass_through w opens t0 t1 ins :
  Forall (fun s =>
            forall frame,
              step_kind s = Published ->
              cap_frame (step_input s) = (true, Some frame) ->
              _enable_hazmat (step_before s) = false ->
              _enable_qr (step_before s) = false ->
              exists ev_fps,
                step_events s
                = [cap_read] ++ ev_fps
                    ++ [hazmatDet []; qrDet []; frameReady frame]
                /\ (ev_fps = [] \/ exists fps, ev_fps = [fpsReady fps]))
         (steps_of (run w opens t0 t1 ins)).
Proof.
  destruct opens; [|rewrite run_open_fails; constructor].
  rewrite steps_of_run_opens.
  apply (loop_steps_ind (fun _ _ => True) (fun _ => True));
    auto using Forall_True.
  intros w0 l i w' l' ev k _ _ _ Hb; split; auto; simpl.
  intros frame -> Hfr Hh Hq.
  apply body_inv in Hb
    as [(E & _)|[(E & _)
                |(_ & _ & frame0 & frame' & ht & qt & ev_st & ev_fps & Hfr0 & _
                  & Hs & Ht & ->)]]; try discriminate.
  assert (frame0 = frame) by congruence; subst frame0.
  unfold stages in Hs; rewrite Hh, Hq in Hs; simpl in Hs; inv Hs.
  exists ev_fps; split; [reflexivity|].
  unfold throughput in Ht; destruct (_ <=? _)%float; inv Ht; eauto.
Qed.

(** *** The life of a detector object *)

Lemma body_hazmat_kept w l i w' l' ev k h :
  hazmat w = Some h ->
  body w l i = (w', l', ev, k) ->
  hazmat w' = Some h /\ none is_hazmat_factory_call ev.
Proof.
  intros Hh Hb.
  destruct k;
    try (destruct (unpublished_inv _ _ _ _ _ _ _ Hb) as (-> & -> & N1 & _);
         [discriminate|]; auto using none_hazmat_factory).
  apply published_inv in Hb
    as (frame & w1 & ev1 & ev2 & frame1 & ht & ev3 & frame' & qt & ev4 & ev_fps
        & Hfr & H1 & H2 & H3 & H4 & -> & (A1 & A2 & A3) & _).
  pose proof (construct_qr_inv _ _ _ _ _ _ H2) as (_ & _ & Hslot & _).
  pose proof (hazmat_pass_events _ _ _ _ _ _ H3) as (_ & _ & A0).
  unfold construct_hazmat in H1; rewrite Hh in H1.
  destruct (_enable_hazmat w); inv H1.
  all: split; [congruence|].
  all: repeat apply none_app; auto using none_hazmat_factory;
    repeat constructor.
Qed.

Lemma body_qr_kept w l i w' l' ev k q :
  qr w = Some q ->
  body w l i = (w', l', ev, k) ->
  qr w' = Some q /\ none is_qr_factory_call ev.
Proof.
  intros Hq Hb.
  destruct k;
    try (destruct (unpublished_inv _ _ _ _ _ _ _ Hb) as (-> & -> & _ & N2 & _);
         [discriminate|]; auto using none_qr_factory).
  apply published_inv in Hb
    as (frame & w1 & ev1 & ev2 & frame1 & ht & ev3 & frame' & qt & ev4 & ev_fps
        & Hfr & H1 & H2 & H3 & H4 & -> & _ & (A1 & A2 & A3) & _).
  pose proof (construct_hazmat_inv _ _ _ _ _ _ H1) as (_ & _ & Hslot & _).
  pose proof (qr_pass_events _ _ _ _ _ _ H4) as (_ & _ & A0).
  unfold construct_qr in H2; rewrite Hslot, Hq in H2.
  destruct (_enable_qr w); inv H2.
  all: split; [congruence|].
  all: repeat apply none_app; auto using none_qr_factory;
    repeat constructor.
Qed.

(** A detector object, once in its slot, stays there for the rest of the
    run, through any switching of its flag, and its factory is not called
    again. *)
Theorem constructed_stage_kept w l ins :
  (forall h, hazmat w = Some h ->
             Forall (fun s => hazmat (step_worker s) = Some h
                              /\ none is_hazmat_factory_call (step_events s))
                    (fst (fst (loop w l ins))))
  /\ (forall q, qr w = Some q ->
                Forall (fun s => qr (step_worker s) = Some q
                                 /\ none is_qr_factory_call (step_events s))
                       (fst (fst (loop w l ins)))).
Proof.
  split; intros o Ho.
  - apply (loop_steps_ind (fun w _ => hazmat w = Some o) (fun _ => True));
      auto using Forall_True.
    intros w0 l0 i w' l' ev k H0 _ _ Hb; simpl.
    destruct (consumer_same_config i w0) as (_ & _ & _ & _ & E & _).
    destruct (body_hazmat_kept _ _ _ _ _ _ _ o (eq_trans E H0) Hb); auto.
  - apply (loop_steps_ind (fun w _ => qr w = Some o) (fun _ => True));
      auto using Forall_True.
    intros w0 l0 i w' l' ev k H0 _ _ Hb; simpl.
    destruct (consumer_same_config i w0) as (_ & _ & _ & _ & _ & E).
    destruct (body_qr_kept _ _ _ _ _ _ _ o (eq_trans E H0) Hb); auto.
Qed.

Lemma body_hazmat_off_slot w l i w' l' ev k :
  _enable_hazmat w = false ->
  body w l i = (w', l', ev, k) -> hazmat w' = hazmat w.
Proof.
  intros Hoff Hb.
  destruct k;
    try (destruct (unpublished_inv _ _ _ _ _ _ _ Hb) as (-> & _);
         [discriminate|]; auto).
  apply published_inv in Hb
    as (frame & w1 & ev1 & ev2 & frame1 & ht & ev3 & frame' & qt & ev4 & ev_fps
        & Hfr & H1 & H2 & _).
  pose proof (construct_qr_inv _ _ _ _ _ _ H2) as (_ & _ & Hslot & _).
  rewrite Hoff in H1; unfold construct_hazmat in H1; inv H1; auto.
Qed.

Lemma body_qr_off_slot w l i w' l' ev k :
  _enable_qr w = false ->
  body w l i = (w', l', ev, k) -> qr w' = qr w.
Proof.
  intros Hoff Hb.
  destruct k;
    try (destruct (unpublished_inv _ _ _ _ _ _ _ Hb) as (-> & _);
         [discriminate|]; auto).
  apply published_inv in Hb
    as (frame & w1 & ev1 & ev2 & frame1 & ht & ev3 & frame' & qt & ev4 & ev_fps
        & Hfr & H1 & H2 & _).
  pose proof (construct_hazmat_inv _ _ _ _ _ _ H1) as (_ & _ & Hslot & _).
  rewrite Hoff in H2; unfold construct_qr in H2; inv H2; auto.
Qed.

(** A stage whose flag is off when an iteration reads it is left alone by
    that iteration: neither its factory nor its detector is called, the
    object in its slot, if any, is kept, and the flag is still off
    afterwards (the worker never switches a flag on). *)
Theorem disabled_stage_untouched w opens t0 t1 ins :
  Forall (fun s =>
            (_enable_hazmat (step_before s) = false ->
             none is_hazmat_call (step_events s)
             /\ hazmat (step_worker s) = hazmat (step_before s)
             /\ _enable_hazmat (step_worker s) = false)
            /\ (_enable_qr (step_before s) = false ->
                none is_qr_call (step_events s)
                /\ qr (step_worker s) = qr (step_before s)
                /\ _enable_qr (step_worker s) = false))
         (steps_of (run w opens t0 t1 ins)).
Proof.
  destruct opens; [|rewrite run_open_fails; constructor].
  rewrite steps_of_run_opens.
  apply (loop_steps_ind (fun _ _ => True) (fun _ => True));
    auto using Forall_True.
  intros w0 l i w' l' ev k _ _ _ Hb; split; auto; simpl.
  split; intros Hoff.
  - destruct (body_hazmat_off _ _ _ _ _ _ _ Hoff Hb) as [F N].
    repeat split; auto.
    eapply body_hazmat_off_slot; eauto.
  - destruct (body_qr_off _ _ _ _ _ _ _ Hoff Hb) as [F N].
    repeat split; auto.
    eapply body_qr_off_slot; eauto.
Qed.

Lemma body_hazmat_returns_none w l i w' l' ev factory :
  body w l i = (w', l', ev, Published) ->
  _enable_hazmat w = true -> hazmat w = None ->
  hazmat_factory w = Some factory -> factory (world i) = Returns None ->
  count is_hazmat_call ev = 1%nat
  /\ count is_hazmat_factory_call ev = 1%nat
  /\ hazmat w' = None /\ _enable_hazmat w' = true
  /\ In (hazmatDet []) ev.
Proof.
  intros Hb Hen Hslot Hfac Hret.
  apply published_inv in Hb
    as (frame & w1 & ev1 & ev2 & frame1 & ht & ev3 & frame' & qt & ev4 & ev_fps
        & Hfr & H1 & H2 & H3 & H4 & -> & (A1 & A2 & A3) & _).
  unfold construct_hazmat in H1.
  rewrite Hen, Hslot, Hfac, Hret in H1.
  injection H1 as Hw1 Hflag Hev1.
  pose proof (construct_qr_inv _ _ _ _ _ _ H2) as (_ & _ & Hslot' & _).
  assert (Hnone : hazmat w' = None) by (rewrite Hslot', <- Hw1; reflexivity).
  unfold hazmat_pass in H3; rewrite Hnone, <- Hflag in H3.
  injection H3 as Hf1 Hht Hev3.
  subst ev1 ev3 ht.
  repeat split; auto.
  - rewrite !count_app.
    rewrite (none_count _ ev2), (none_count _ ev4), (none_count _ ev_fps)
      by auto.
    reflexivity.
  - rewrite !count_app.
    rewrite (none_count _ ev2), (none_count _ ev4), (none_count _ ev_fps)
      by auto using none_hazmat_factory.
    reflexivity.
  - apply in_or_app; right; simpl; auto.
Qed.

Lemma body_qr_returns_none w l i w' l' ev factory :
  body w l i = (w', l', ev, Published) ->
  _enable_qr w = true -> qr w = None ->
  qr_factory w = Some factory -> factory (world i) = Returns None ->
  count is_qr_call ev = 1%nat
  /\ count is_qr_factory_call ev = 1%nat
  /\ qr w' = None /\ _enable_qr w' = true
  /\ In (qrDet []) ev.
Proof.
  intros Hb Hen Hslot Hfac Hret.
  apply published_inv in Hb
    as (frame & w1 & ev1 & ev2 & frame1 & ht & ev3 & frame' & qt & ev4 & ev_fps
        & Hfr & H1 & H2 & H3 & H4 & -> & _ & (A1 & A2 & A3) & _).
  pose proof (construct_hazmat_inv _ _ _ _ _ _ H1)
    as ((_ & _ & _ & _ & Hfac1) & _ & Hslot1 & _).
  unfold construct_qr in H2.
  rewrite Hen, Hslot1, Hslot, Hfac1, Hfac, Hret in H2.
  injection H2 as Hw' Hflag Hev2.
  assert (Hnone : qr w' = None) by (rewrite <- Hw'; simpl; congruence).
  unfold qr_pass in H4; rewrite Hnone, <- Hflag in H4.
  injection H4 as Hf' Hqt Hev4.
  subst ev2 ev4 qt.
  repeat split; auto.
  - rewrite !count_app.
    rewrite (none_count _ ev1), (none_count _ ev3), (none_count _ ev_fps)
      by auto.
    reflexivity.
  - rewrite !count_app.
    rewrite (none_count _ ev1), (none_count _ ev3), (none_count _ ev_fps)
      by auto using none_qr_factory.
    reflexivity.
  - apply in_or_app; right; simpl; auto.
Qed.

(** A factory that returns [None] instead of raising is not a failure to
    the worker: the iteration calls it once and no detector, publishes the
    empty list, and leaves the flag on and the slot empty, so that the next
    frame iteration calls the factory again. *)
Theorem factory_returning_none_is_retried w opens t0 t1 ins :
  Forall (fun s =>
            (hazmat_factory_returns_none s ->
             count is_hazmat_call (step_events s) = 1%nat
             /\ count is_hazmat_factory_call (step_events s) = 1%nat
             /\ hazmat (step_worker s) = None
             /\ _enable_hazmat (step_worker s) = true
             /\ In (hazmatDet []) (step_events s))
            /\ (qr_factory_returns_none s ->
                count is_qr_call (step_events s) = 1%nat
                /\ count is_qr_factory_call (step_events s) = 1%nat
                /\ qr (step_worker s) = None
                /\ _enable_qr (step_worker s) = true
                /\ In (qrDet []) (step_events s)))
         (steps_of (run w opens t0 t1 ins)).
Proof.
  destruct opens; [|rewrite run_open_fails; constructor].
  rewrite steps_of_run_opens.
  apply (loop_steps_ind (fun _ _ => True) (fun _ => True));
    auto using Forall_True.
  intros w0 l i w' l' ev k _ _ _ Hb; split; auto.
  split; intros (Hk & Hen & Hslot & factory & Hfac & Hret); simpl in *;
    subst k.
  - eapply body_hazmat_returns_none; eauto.
  - eapply body_qr_returns_none; eauto.
Qed.

(** *** The two stages in sequence *)

Lemma none_detector_call tr :
  none is_hazmat_call tr -> none is_qr_call tr -> none is_detector_call tr.
Proof.
  unfold none; intros H1 H2; rewrite Forall_forall in *.
  intros e He; specialize (H1 e He); specialize (H2 e He).
  now destruct e.
Qed.

(** With both stages enabled and constructed and no call raising, the
    detectors are called in the order hazmat [detect], hazmat [annotate],
    QR [detect], QR [annotate]; each [annotate] is handed the array as its
    [detect] left it, the QR detector is given the frame the hazmat
    detector returned, and the frame published is the one the QR detector
    returned for it.  The QR list is the non-empty texts the QR detector
    found on that frame. *)
Theorem stages_compose w opens t0 t1 ins :
  Forall (fun s =>
            forall frame h q cids confs boxes frame1 qr_res frame2
                   frame_d frame_a frame1_d frame1_a,
              step_kind s = Published ->
              cap_frame (step_input s) = (true, Some frame) ->
              _enable_hazmat (step_before s) = true ->
              _enable_qr (step_before s) = true ->
              hazmat (step_worker s) = Some h ->
              qr (step_worker s) = Some q ->
              hazmat_detect h frame = (frame_d, Some (cids, confs, boxes)) ->
              hazmat_annotate h frame_d cids confs boxes
              = (frame_a, Some frame1) ->
              qr_detect q frame1 = (frame1_d, Some qr_res) ->
              qr_annotate q frame1_d qr_res = (frame1_a, Some frame2) ->
              filter is_detector_call (step_events s)
              = [call_hazmat_detect frame; call_hazmat_annotate frame_d;
                 call_qr_detect frame1; call_qr_annotate frame1_d]
              /\ exists ev ht,
                  step_events s
                  = ev ++ [hazmatDet ht;
                           qrDet (filter nonempty (map fst qr_res));
                           frameReady frame2]
                  /\ ht = match hazmat_texts h cids confs with
                          | Some texts => texts
                          | None => []
                          end)
         (steps_of (run w opens t0 t1 ins)).
Proof.
  destruct opens; [|rewrite run_open_fails; constructor].
  rewrite steps_of_run_opens.
  apply (loop_steps_ind (fun _ _ => True) (fun _ => True));
    auto using Forall_True.
  intros w0 l i w' l' ev k _ _ _ Hb; split; auto; simpl.
  intros frame h q cids confs boxes frame1 qr_res frame2
         frame_d frame_a frame1_d frame1_a
         -> Hfr Hen1 Hen2 Hh Hq D1 N1 D2 N2.
  apply published_inv in Hb
    as (frame0 & w1 & ev1 & ev2 & f1 & ht & ev3 & frame' & qt & ev4 & ev_fps
        & Hfr0 & H1 & H2 & H3 & H4 & -> & (_ & _ & A3) & (_ & _ & B3) & _).
  assert (frame0 = frame) by congruence; subst frame0.
  pose proof (construct_qr_inv _ _ _ _ _ _ H2) as (_ & _ & Hslot & _).
  rewrite Hen1 in H1; rewrite Hen2 in H2.
  assert (Hh1 : hazmat w1 = Some h) by congruence.
  assert (E1 : _enable_hazmat w' = true)
    by exact (construct_hazmat_enabled _ _ _ _ _ h H1 Hh1).
  assert (E2 : _enable_qr w' = true)
    by exact (construct_qr_enabled _ _ _ _ _ q H2 Hq).
  assert (F1 : filter is_detector_call ev1 = [])
    by (unfold construct_hazmat in H1; repeat break_match; inv H1;
        reflexivity).
  assert (F2 : filter is_detector_call ev2 = [])
    by (unfold construct_qr in H2; repeat break_match; inv H2; reflexivity).
  assert (F5 : filter is_detector_call ev_fps = [])
    by (apply none_filter, none_detector_call; assumption).
  rewrite E1 in H3; rewrite E2 in H4.
  unfold hazmat_pass in H3; rewrite Hh in H3.
  unfold run_hazmat in H3; rewrite D1, N1 in H3.
  unfold qr_pass in H4; rewrite Hq in H4.
  assert (f1 = frame1) by (destruct (hazmat_texts h cids confs); now inv H3).
  subst f1.
  unfold run_qr in H4; rewrite D2, N2 in H4; inv H4.
  split.
  - cbn [app filter is_detector_call].
    rewrite !filter_app, F1, F2, F5.
    destruct (hazmat_texts h cids confs); inv H3; reflexivity.
  - eexists; exists ht; split; [reflexivity|].
    destruct (hazmat_texts h cids confs); now inv H3.
Qed.

(** *** The texts of the findings *)

(** The comprehension goes pair by pair. *)
Lemma label_texts_app labels pre : forall cpre cids confs,
  List.length pre = List.length cpre ->
  label_texts labels (pre ++ cids) (cpre ++ confs)
  = label_texts labels pre cpre ++ label_texts labels cids confs.
Proof.
  induction pre as [|cid pre IH]; intros [|conf cpre] cids confs Hlen;
    try discriminate; [reflexivity|].
  cbn [app label_texts].
  rewrite IH by (simpl in Hlen; lia).
  now destruct (_ && _).
Qed.

(** The texts built with a label table: class ids outside the table are
    skipped, whatever is left over in the longer of [cids] and [confs] is
    ignored, and when every class id is in the table and has a confidence
    there is one text per class id.  Skipped means that a class id
    outside the table can be taken out of the detections, with its
    confidence, without changing the texts, wherever it stands; a class id
    in the table gives its label and confidence at its place, between the
    texts of the detections before it and after it. *)
Theorem label_texts_bounds labels cids confs :
  (List.length (label_texts labels cids confs)
   <= Nat.min (List.length cids) (List.length confs))%nat
  /\ (Forall (fun cid => in_table labels cid = false) cids ->
      label_texts labels cids confs = [])
  /\ (Forall (fun cid => in_table labels cid = true) cids ->
      (List.length cids <= List.length confs)%nat ->
      List.length (label_texts labels cids confs) = List.length cids)
  /\ (forall pre cid post cpre conf cpost,
        cids = pre ++ cid :: post ->
        confs = cpre ++ conf :: cpost ->
        List.length pre = List.length cpre ->
        label_texts labels cids confs
        = if in_table labels cid
          then label_texts labels pre cpre
                 ++ text_of (nth (Z.to_nat cid) labels "") conf
                 :: label_texts labels post cpost
          else label_texts labels (pre ++ post) (cpre ++ cpost)).
Proof.
  split; [|split; [|split]].
  - assert (H : (List.length (label_texts labels cids confs)
                 <= List.length cids)%nat
                /\ (List.length (label_texts labels cids confs)
                    <= List.length confs)%nat).
    { revert confs; induction cids as [|cid cids IH]; intros [|conf confs];
        cbn [label_texts List.length]; try lia.
      destruct (IH confs) as [IH1 IH2].
      destruct (_ && _); cbn [List.length]; lia. }
    now apply Nat.min_glb.
  - intros H; revert confs; induction H as [|cid cids Hc _ IH];
      intros [|conf confs]; simpl; auto.
    unfold in_table in Hc; now rewrite Hc.
  - intros H; revert confs; induction H as [|cid cids Hc _ IH];
      intros [|conf confs] Hlen; simpl in *; try lia.
    unfold in_table in Hc; rewrite Hc; simpl.
    rewrite IH; lia.
  - intros pre cid post cpre conf cpost -> -> Hlen.
    rewrite !label_texts_app by assumption.
    cbn [label_texts]; fold (in_table labels cid).
    now destruct (in_table labels cid).
Qed.

Lemma id_texts_spec cids : forall i confs,
  (id_texts i cids confs = None
   <-> (0 < List.length cids
        /\ List.length confs < i + List.length cids)%nat)
  /\ (forall texts, id_texts i cids confs = Some texts ->
                    List.length texts = List.length cids).
Proof.
  induction cids as [|cid cids IH]; intros i confs; cbn [id_texts List.length].
  - split; [split; [discriminate|lia]|].
    intros texts H; now inv H.
  - destruct (IH (S i) confs) as [[IH1a IH1b] IH2].
    destruct (nth_error confs i) as [conf|] eqn:E.
    + assert (Hi : (i < List.length confs)%nat)
        by (apply nth_error_Some; congruence).
      destruct (id_texts (S i) cids confs) as [texts|] eqn:E'.
      * split; [split; [discriminate|]|].
        -- intros [_ Hlt].
           assert (Hn : @None (list string) = None -> False)
             by (intros _; destruct cids as [|c cids'];
                 [simpl in Hlt; lia
                 |assert (Some texts = None) by (apply IH1b; simpl in *; lia);
                  discriminate]).
           exfalso; now apply Hn.
        -- intros texts' H; inv H; simpl; now rewrite (IH2 texts).
      * split; [split; auto|discriminate].
        intros _; destruct (IH1a eq_refl); lia.
    + apply nth_error_None in E.
      split; [split; auto; intros _; lia|discriminate].
Qed.

(** The texts built without a label table: indexing [confs] raises exactly
    when there are fewer confidences than class ids; otherwise there is one
    text per class id, and confidences left over are ignored. *)
Theorem fallback_texts_bounds h cids confs :
  hazmat_labels h = None ->
  (hazmat_texts h cids confs = None
   <-> (List.length confs < List.length cids)%nat)
  /\ (forall texts, hazmat_texts h cids confs = Some texts ->
                    List.length texts = List.length cids).
Proof.
  intros Hl; unfold hazmat_texts; rewrite Hl.
  destruct (id_texts_spec cids 0 confs) as [[H1 H2] H3].
  repeat split; auto.
  - intros H; destruct (H1 H); lia.
  - intros H; apply H2; simpl; lia.
Qed.

Lemma In_events_of e steps :
  In e (events_of steps) -> exists s, In s steps /\ In e (step_events s).
Proof.
  unfold events_of; intros H; apply in_concat in H as (ev & Hev & He).
  apply in_map_iff in Hev as (s & <- & Hs); eauto.
Qed.

Lemma body_qr_texts w l i w' l' ev k texts :
  body w l i = (w', l', ev, k) ->
  In (qrDet texts) ev -> Forall (fun t => nonempty t = true) texts.
Proof.
  intros Hb Hin.
  destruct k;
    try (destruct (unpublished_inv _ _ _ _ _ _ _ Hb) as (_ & _ & _ & _ & N);
         [discriminate|];
         exfalso; eapply none_not_In; eauto; reflexivity).
  apply published_inv in Hb
    as (frame & w1 & ev1 & ev2 & frame1 & ht & ev3 & frame' & qt & ev4 & ev_fps
        & Hfr & H1 & H2 & H3 & H4 & -> & _ & _ & F).
  apply published_findings in Hin as [E|[E|E]]; auto; inv E.
  unfold qr_pass, run_qr in H4.
  repeat break_match; inv H4; try constructor.
  apply Forall_forall; intros t Ht; now apply filter_In in Ht.
Qed.

(** No QR list published in any run contains an empty text. *)
Theorem qr_texts_not_empty w opens t0 t1 ins texts :
  In (qrDet texts) (trace (run w opens t0 t1 ins)) ->
  Forall (fun t => nonempty t = true) texts.
Proof.
  destruct opens;
    [|rewrite run_open_fails; simpl; intros [H|[]]; discriminate].
  rewrite run_opens; unfold trace.
  assert (Hall : Forall (fun s => forall texts,
                             In (qrDet texts) (step_events s) ->
                             Forall (fun t => nonempty t = true) texts)
                        (fst (fst (loop (started w true)
                                        (first_locals t0 t1) ins)))).
  { apply (loop_steps_ind (fun _ _ => True) (fun _ => True));
      auto using Forall_True.
    intros w0 l i w' l' ev k _ _ _ Hb; split; auto; simpl.
    intros texts0; eapply body_qr_texts; eauto. }
  assert (Hclose : forall e, In e (snd (loop (started w true)
                                            (first_locals t0 t1) ins)) ->
                             e = cap_release).
  { clear; generalize (started w true), (first_locals t0 t1).
    induction ins as [|i ins IH]; intros w0 l e; [intros []|].
    destruct (_running (consumer i w0)) eqn:Hr.
    - destruct (body (consumer i w0) l i) as [[[w' l'] ev] k] eqn:Hb.
      rewrite (loop_step _ _ _ _ _ _ _ _ Hr Hb); cbn [snd]; apply IH.
    - rewrite (loop_stop _ _ _ _ Hr); cbn [snd].
      unfold close; destruct (_cap _); simpl; intuition. }
  destruct (loop (started w true) (first_locals t0 t1) ins)
    as [[steps p] evc]; cbn [fst snd] in *.
  intros [H|H]; [discriminate|].
  cbn [app] in H; apply in_app_or in H as [H|H].
  - apply In_events_of in H as (s & Hs & He).
    rewrite Forall_forall in Hall; eapply Hall; eauto.
  - apply Hclose in H; discriminate.
Qed.

(** *** The first frame *)

(** The pacing of C1 also holds for the first frame: it is not accepted
    closer than [1 / R] to the clock reading [run] takes when the stream has
    opened. *)
Theorem first_frame_paced url hf qf (R : float) :
  (0 <? R)%float = true ->
  exists w,
    init url hf qf R = Some w
    /\ forall t0 t1 ins,
        neighbours (not_closer (1 / R))
                   (t0 :: accepted_times (steps_of (run w true t0 t1 ins))).
Proof.
  intros HR.
  destruct (init_positive url hf qf R HR) as [w Hw].
  exists w; split; auto.
  apply init_facts in Hw as (Hm & _).
  intros t0 t1 ins; rewrite steps_of_run_opens.
  assert (Hm' : min_frame_interval (started w true) = (1 / R)%float)
    by exact Hm.
  rewrite <- Hm'.
  exact (loop_accepted_not_closer ins (started w true) (first_locals t0 t1)).
Qed.

End Worker.

(** *** Concrete runs *)

(** A run at 32 frames per second with a hazmat detector that has a label
    table: an early iteration, a frame, a failed read, a second frame more
    than a second after the start (two frames in 1.25 s), and a stop. *)
Example run_with_labels :
  trace nat unit unit unit
    (run nat unit unit unit (fun _ => "0.90")
         (constructed nat unit unit unit "http://192.168.4.1:81/stream"
            (Some (fun _ =>
                     Returns (Some (fixed_hazmat nat unit unit
                                      [1%Z; 7%Z; 0%Z] [tt; tt; tt] [tt; tt; tt]
                                      (Some ["acid"; "gas"]) S))))
            None 32%float)
         true 0%float 0%float
         [switching nat unit (Some true) None 0.015625%float
                    (true, Some 10%nat) tt;
          quiet nat unit 0.5%float (true, Some 10%nat) tt;
          quiet nat unit 0.75%float (false, None) tt;
          quiet nat unit 1.25%float (true, Some 20%nat) tt;
          stopping nat unit 1.5%float (true, Some 30%nat) tt])
  = [opened nat true "opened";
     msleep nat 5;
     cap_read nat; call_hazmat_factory nat;
     call_hazmat_detect nat 10%nat; call_hazmat_annotate nat 10%nat;
     hazmatDet nat ["gas (0.90)"; "acid (0.90)"]; qrDet nat [];
     frameReady nat 11%nat;
     cap_read nat; msleep nat 10;
     cap_read nat;
     call_hazmat_detect nat 20%nat; call_hazmat_annotate nat 20%nat;
     fpsReady nat (2 / 1.25)%float;
     hazmatDet nat ["gas (0.90)"; "acid (0.90)"]; qrDet nat [];
     frameReady nat 21%nat;
     cap_release nat].
Proof. reflexivity. Qed.

(** A detector without a label table that returns fewer confidences than
    class ids: [confs[i]] raises after [annotate] has returned, so the list
    published is empty and the frame published is the annotated one. *)
Example run_with_short_confs :
  trace nat unit unit unit
    (run nat unit unit unit (fun _ => "0.90")
         (constructed nat unit unit unit "http://192.168.4.1:81/stream"
            (Some (fun _ =>
                     Returns (Some (fixed_hazmat nat unit unit
                                      [1%Z; 7%Z] [tt] [tt; tt] None S))))
            None 32%float)
         true 0%float 0%float
         [switching nat unit (Some true) None 0.5%float
                    (true, Some 10%nat) tt])
  = [opened nat true "opened";
     cap_read nat; call_hazmat_factory nat;
     call_hazmat_detect nat 10%nat; call_hazmat_annotate nat 10%nat;
     print nat "[hazmat] run error:";
     hazmatDet nat []; qrDet nat []; frameReady nat 11%nat].
Proof. reflexivity. Qed.

Lemma pacing_invariant_witness :
  let ins := [quiet nat unit 0.015625%float (true, Some 1%nat) tt;
              quiet nat unit 0.125%float (true, Some 2%nat) tt;
              quiet nat unit 0.140625%float (true, Some 3%nat) tt;
              quiet nat unit 0.25%float (true, Some 4%nat) tt] in
  (0 <? 32)%float = true
  /\ Forall (fun i => is_finite (now nat unit i) = true) ins
  /\ exists w,
      init nat unit unit unit "http://192.168.4.1:81/stream" None None 32%float
      = Some w
      /\ neighbours (apart (1 / 32)%float)
           (accepted_times nat unit unit unit
              (steps_of nat unit unit unit
                 (run nat unit unit unit (fun _ => "0.50") w true
                      0%float 0%float ins))).
Proof.
  intros ins.
  assert (Hfin : Forall (fun i => is_finite (now nat unit i) = true) ins)
    by (repeat constructor).
  split; [reflexivity|]. split; [exact Hfin|].
  destruct (pacing_invariant nat unit unit unit (fun _ => "0.50")
              "http://192.168.4.1:81/stream" None None 32%float eq_refl)
    as (w & Hw & H).
  exists w; split; [exact Hw|].
  exact (proj1 (proj2 (H true 0%float 0%float ins)) Hfin).
Defined.

Lemma read_failures_keep_streaming_witness :
  let w := constructed nat unit unit unit "http://192.168.4.1:81/stream"
                       None None 32%float in
  let pre := [quiet nat unit 0.125%float (true, Some 7%nat) tt] in
  let fails := [quiet nat unit 0.140625%float (false, None) tt;
                quiet nat unit 0.5%float (false, Some 1%nat) tt;
                quiet nat unit 1%float (true, None) tt] in
  let r := run nat unit unit unit (fun _ => "0.50") w true 0%float 0%float in
  Forall (fun i => consumer_stop nat unit i = false) pre
  /\ Forall (fun i => consumer_stop nat unit i = false
                      /\ read_fails nat (cap_frame nat unit i)) fails
  /\ exists w0 l0 mid,
      final nat unit unit unit (r pre) = Streaming nat unit unit unit w0 l0
      /\ frame_count l0 = 1%Z
      /\ final nat unit unit unit (r (pre ++ fails))
         = Streaming nat unit unit unit (consumers nat unit unit unit fails w0) l0
      /\ trace nat unit unit unit (r (pre ++ fails))
         = trace nat unit unit unit (r pre) ++ events_of nat unit unit unit mid
      /\ List.length mid = 3%nat
      /\ none nat (is_publication nat) (events_of nat unit unit unit mid).
Proof.
  intros w pre fails r.
  assert (Hpre : Forall (fun i => consumer_stop nat unit i = false) pre)
    by (repeat constructor).
  assert (H : Forall (fun i => consumer_stop nat unit i = false
                               /\ read_fails nat (cap_frame nat unit i))
                     fails).
  { unfold fails;
      repeat (apply Forall_cons;
              [split; [reflexivity|unfold read_fails; simpl; auto]|]);
      apply Forall_nil. }
  split; [exact Hpre|]; split; [exact H|].
  destruct (read_failures_keep_streaming nat unit unit unit (fun _ => "0.50")
              w 0%float 0%float pre fails [] Hpre H)
    as (w0 & l0 & mid & Hf & Hff & _ & Htr & Hlen & _ & Hnone & _).
  exists w0, l0, mid.
  split; [exact Hf|].
  split; [lazy in Hf; inversion Hf; reflexivity|].
  split; [exact Hff|].
  split; [exact Htr|].
  split; [exact Hlen|exact Hnone].
Defined.

Lemma throughput_once_per_window_witness :
  let w := constructed nat unit unit unit "http://192.168.4.1:81/stream"
                       None None 32%float in
  let r := run nat unit unit unit (fun _ => "0.50") w true 0%float 0%float
               [quiet nat unit 0.5%float (true, Some 1%nat) tt;
                quiet nat unit 0.75%float (false, None) tt;
                quiet nat unit 1%float (true, Some 2%nat) tt;
                quiet nat unit 1.5%float (true, Some 3%nat) tt] in
  exists s1 s2 s3 s4,
    steps_of nat unit unit unit r = [s1; s2; s3; s4]
    /\ filter (is_fps nat) (step_events nat unit unit unit s1) = []
    /\ frame_count (step_locals nat unit unit unit s1) = 1%Z
    /\ filter (is_fps nat) (step_events nat unit unit unit s2) = []
    /\ step_locals nat unit unit unit s2
       = step_locals_before nat unit unit unit s2
    /\ filter (is_fps nat) (step_events nat unit unit unit s3)
       = [fpsReady nat 2%float]
    /\ frame_count (step_locals nat unit unit unit s3) = 0%Z
    /\ last_fps_time (step_locals nat unit unit unit s3) = 1%float
    /\ frame_count (step_locals_before nat unit unit unit s4) = 0%Z.
Proof.
  intros w r.
  destruct (throughput_once_per_window nat unit unit unit (fun _ => "0.50")
              w true 0%float 0%float
              [quiet nat unit 0.5%float (true, Some 1%nat) tt;
               quiet nat unit 0.75%float (false, None) tt;
               quiet nat unit 1%float (true, Some 2%nat) tt;
               quiet nat unit 1.5%float (true, Some 3%nat) tt])
    as (_ & Hall & Hcount).
  fold r in Hall, Hcount.
  assert (Hs : steps_of nat unit unit unit r = [_; _; _; _])
    by (lazy; reflexivity).
  do 4 eexists; split; [exact Hs|].
  pose proof (Hcount [_; _; _] _ [] Hs) as H4.
  rewrite Hs in Hall.
  inversion Hall as [|? ? T1 Hall1]; subst.
  inversion Hall1 as [|? ? T2 Hall2]; subst.
  inversion Hall2 as [|? ? T3 _]; subst.
  clear Hall Hall1 Hall2 Hcount Hs.
  unfold throughput_step in T1, T2, T3.
  destruct T1 as [(Hle & _)|(_ & F1 & C1 & _)];
    [lazy in Hle; discriminate|].
  destruct T2 as [F2 L2].
  destruct T3 as [(_ & F3 & C3 & W3)|(Hlt & _)];
    [|lazy in Hlt; discriminate].
  split; [exact F1|].
  split; [rewrite C1; reflexivity|].
  split; [exact F2|].
  split; [exact L2|].
  split; [rewrite F3; lazy; reflexivity|].
  split; [exact C3|].
  split; [exact W3|].
  rewrite H4; lazy; reflexivity.
Defined.

(** Claim C8 as the specification has it fails: a target rate of half a
    frame per second, so that the next frame is due two seconds after the
    stream opened.  The first iteration comes 1.5 s after the window
    started and is too early for a frame, the second comes at 2.5 s and its
    read fails: the window is at least one second old in both, and neither
    publishes a sample or restarts the window. *)
Lemma stalled_stream_publishes_no_throughput :
  let w := constructed nat unit unit unit "http://192.168.4.1:81/stream"
                       None None 0.5%float in
  let r := run nat unit unit unit (fun _ => "0.50") w true 0%float 0%float
               [quiet nat unit 1.5%float (true, Some 7%nat) tt;
                quiet nat unit 2.5%float (false, None) tt] in
  map (step_kind nat unit unit unit) (steps_of nat unit unit unit r)
  = [Paced; ReadFailed]
  /\ Forall (fun s => (1 <=? window_age nat unit unit unit s)%float = true)
            (steps_of nat unit unit unit r)
  /\ trace nat unit unit unit r
     = [opened nat true "opened"; msleep nat 5; cap_read nat; msleep nat 10]
  /\ Forall (fun s => last_fps_time (step_locals nat unit unit unit s)
                      = 0%float)
            (steps_of nat unit unit unit r)
  /\ ~ Forall (publishes_when_due nat unit unit unit)
              (steps_of nat unit unit unit r).
Proof.
  intros w r.
  split; [reflexivity|].
  split; [repeat constructor|].
  split; [reflexivity|].
  split; [repeat constructor|].
  intros Hall.
  assert (Hs : steps_of nat unit unit unit r = [_; _]) by (lazy; reflexivity).
  rewrite Hs in Hall; apply Forall_inv in Hall.
  destruct (Hall eq_refl) as [fps Hin].
  cbv in Hin; destruct Hin as [Hin|[]]; discriminate.
Qed.

Lemma factory_failure_disables_witness :
  let w := constructed nat unit unit unit "http://192.168.4.1:81/stream"
                       (Some (fun _ => Raises)) None 32%float in
  let l := first_locals 0%float 0%float in
  let i := switching nat unit (Some true) None 0.125%float (true, Some 1%nat) tt in
  let ins := [quiet nat unit 0.25%float (true, Some 2%nat) tt;
              quiet nat unit 0.375%float (true, Some 3%nat) tt] in
  exists s rest,
    fst (fst (loop nat unit unit unit (fun _ => "0.50")
                   (started nat unit unit unit w true) l (i :: ins)))
    = s :: rest
    /\ hazmat_factory_raises nat unit unit unit s
    /\ Forall (fun j => consumer_hazmat nat unit j <> Some true) ins
    /\ _enable_hazmat nat unit unit unit (step_worker nat unit unit unit s) = false
    /\ count nat (is_hazmat_factory_call nat)
             (step_events nat unit unit unit s) = 1%nat
    /\ Forall (fun s' =>
                 _enable_hazmat nat unit unit unit
                                (step_worker nat unit unit unit s') = false
                 /\ none nat (is_hazmat_call nat)
                         (step_events nat unit unit unit s')) rest.
Proof.
  intros w l i ins.
  eexists; eexists.
  assert (Hl : fst (fst (loop nat unit unit unit (fun _ => "0.50")
                              (started nat unit unit unit w true) l (i :: ins)))
               = _ :: _) by (lazy; reflexivity).
  split; [exact Hl|].
  match type of Hl with _ = ?s :: ?rest =>
    assert (Hr : hazmat_factory_raises nat unit unit unit s)
      by (repeat split; eexists; split; reflexivity);
    assert (Hi : Forall (fun j => consumer_hazmat nat unit j <> Some true) ins)
      by (repeat constructor; discriminate)
  end.
  split; [exact Hr|]. split; [exact Hi|].
  destruct (factory_failure_disables nat unit unit unit (fun _ => "0.50")
              _ _ _ _ _ _ Hl) as [Hh _].
  destruct (Hh Hr) as (H1 & _ & H3 & _ & H5).
  split; [exact H1|]. split; [exact H3|]. exact (H5 Hi).
Defined.

Lemma stage_failure_isolated_witness :
  let h := scribbling_hazmat nat unit unit S in
  let w := constructed nat unit unit unit "http://192.168.4.1:81/stream"
                       (Some (fun _ => Returns (Some h)))
                       (Some (fun _ => Returns (Some (broken_qr nat unit))))
                       32%float in
  let ins := [switching nat unit (Some true) None 0.125%float
                        (true, Some 10%nat) tt;
              switching nat unit (Some false) (Some true) 0.25%float
                        (true, Some 20%nat) tt] in
  let r := run nat unit unit unit (fun _ => "0.50") w true 0%float 0%float ins in
  Forall (fun i => consumer_stop nat unit i = false) ins
  /\ List.length (steps_of nat unit unit unit r) = 2%nat
  /\ exists s rest,
      steps_of nat unit unit unit r = s :: rest
      /\ gets_frame nat unit unit unit s 10%nat
      /\ _enable_hazmat nat unit unit unit (step_before nat unit unit unit s) = true
      /\ hazmat nat unit unit unit (step_worker nat unit unit unit s) = Some h
      /\ hazmat_raises nat unit unit h 10%nat 11%nat
      /\ step_kind nat unit unit unit s = Published
      /\ exists ev,
          step_events nat unit unit unit s
          = ev ++ [hazmatDet nat []; qrDet nat []; frameReady nat 11%nat]
          /\ In (print nat "[hazmat] run error:") ev.
Proof.
  intros h w ins r.
  destruct (stage_failure_isolated nat unit unit unit (fun _ => "0.50")
              w true 0%float 0%float ins) as [Hiso Hgo].
  assert (Hins : Forall (fun i => consumer_stop nat unit i = false) ins)
    by (repeat constructor).
  split; [exact Hins|].
  split; [exact (proj1 (Hgo eq_refl Hins))|].
  eexists; eexists.
  assert (Hs : steps_of nat unit unit unit r = _ :: _) by (lazy; reflexivity).
  split; [exact Hs|].
  fold r in Hiso; rewrite Hs in Hiso.
  apply Forall_inv in Hiso; destruct Hiso as [Hh _].
  assert (Hraise : hazmat_raises nat unit unit h 10%nat 11%nat)
    by (right; exists [], [], [], 10%nat; split; reflexivity).
  assert (Hget : gets_frame nat unit unit unit
                   (hd (Build_Step nat unit unit unit w (first_locals 0 0)
                          (quiet nat unit 0 (false, None) tt) Paced [] w
                          (first_locals 0 0))
                       (steps_of nat unit unit unit r)) 10%nat)
    by (split; reflexivity).
  rewrite Hs in Hget; cbn [hd] in Hget.
  split; [exact Hget|].
  repeat (split; [reflexivity|]).
  split; [exact Hraise|].
  destruct (Hh 10%nat h 11%nat Hget eq_refl eq_refl Hraise)
    as (Hk & frame' & qt & ev_q & ev & Hq & Hev & _ & Hprint).
  split; [exact Hk|].
  exists ev; split; [|exact Hprint].
  cbv in Hq; inversion Hq; subst frame' qt; exact Hev.
Defined.

(** Claim C2 as the specification has it fails: a hazmat detector whose
    [annotate] draws into the array it is handed and then raises.  The
    frame read is 10, the stage raised, no other stage is enabled, and the
    frame published is 11: the stage did modify the frame in flight. *)
Lemma stage_failure_modifies_frame :
  let h := scribbling_hazmat nat unit unit S in
  let w := constructed nat unit unit unit "http://192.168.4.1:81/stream"
                       (Some (fun _ => Returns (Some h))) None 32%float in
  let r := run nat unit unit unit (fun _ => "0.50") w true 0%float 0%float
               [switching nat unit (Some true) None 0.125%float
                          (true, Some 10%nat) tt] in
  hazmat_raises nat unit unit h 10%nat 11%nat
  /\ trace nat unit unit unit r
     = [opened nat true "opened"; cap_read nat; call_hazmat_factory nat;
        call_hazmat_detect nat 10%nat; call_hazmat_annotate nat 10%nat;
        print nat "[hazmat] run error:";
        hazmatDet nat []; qrDet nat []; frameReady nat 11%nat]
  /\ ~ Forall (hazmat_leaves_frame nat unit unit unit)
              (steps_of nat unit unit unit r).
Proof.
  intros h w r.
  assert (Hraise : hazmat_raises nat unit unit h 10%nat 11%nat)
    by (right; exists [], [], [], 10%nat; split; reflexivity).
  split; [exact Hraise|].
  split; [reflexivity|].
  intros Hall.
  assert (Hs : steps_of nat unit unit unit r = [_]) by (lazy; reflexivity).
  rewrite Hs in Hall; apply Forall_inv in Hall.
  destruct (Hall 10%nat h 11%nat) as (frame' & qt & ev_q & ev & Hq & Hev);
    [split; reflexivity|reflexivity|reflexivity|exact Hraise|].
  cbv in Hq; inversion Hq; subst frame' qt ev_q.
  cbn [step_events] in Hev.
  apply (f_equal (fun tr => last tr (cap_read nat))) in Hev.
  change (ev ++ [hazmatDet nat []; qrDet nat []; frameReady nat 10%nat])
    with (ev ++ [hazmatDet nat []; qrDet nat []] ++ [frameReady nat 10%nat])
    in Hev.
  rewrite app_assoc, last_last in Hev.
  cbv in Hev; discriminate.
Qed.


Lemma reopen_drops_capture_witness :
  let ops := [do_read nat (true, Some 1%nat); do_close nat; do_close nat] in
  Forall (fun op => is_do_open nat op = false) ops
  /\ (count nat (is_release nat)
            (snd (client_calls nat (client_init "http://192.168.4.1:81/stream")
                               (do_open nat true :: do_open nat true :: ops)))
      <= 1)%nat.
Proof.
  intros ops.
  assert (H : Forall (fun op => is_do_open nat op = false) ops)
    by (repeat constructor).
  split; [exact H|].
  exact (reopen_drops_capture nat "http://192.168.4.1:81/stream"
                              true true ops H).
Defined.

Lemma stop_ends_run_witness :
  let w := constructed nat unit unit unit "http://192.168.4.1:81/stream"
                       None None 32%float in
  let pre := [quiet nat unit 0.5%float (true, Some 1%nat) tt] in
  let i := stopping nat unit 0.75%float (true, Some 2%nat) tt in
  let post := [quiet nat unit 1%float (true, Some 3%nat) tt] in
  let r := run nat unit unit unit (fun _ => "0.90") in
  Forall (fun j => consumer_stop nat unit j = false) pre
  /\ consumer_stop nat unit i = true
  /\ trace nat unit unit unit (r w true 0%float 0%float (pre ++ i :: post))
     = trace nat unit unit unit (r w true 0%float 0%float pre)
         ++ [cap_release nat]
  /\ List.length
       (steps_of nat unit unit unit
          (r (stop nat unit unit unit w) true 0%float 0%float (pre ++ post)))
     = 2%nat.
Proof.
  intros w pre i post r.
  assert (H : Forall (fun j => consumer_stop nat unit j = false) pre)
    by (repeat constructor).
  split; [exact H|]. split; [reflexivity|].
  destruct (stop_ends_run nat unit unit unit (fun _ => "0.90")
              w 0%float 0%float pre i post H eq_refl)
    as ((_ & Htr & _) & _ & Hlost).
  split; [exact Htr|].
  apply (Hlost (pre ++ post)); repeat constructor.
Defined.

Lemma qr_texts_not_empty_witness :
  let w := constructed nat unit unit unit "http://192.168.4.1:81/stream"
             None
             (Some (fun _ =>
                      Returns (Some (fixed_qr nat unit
                                       [("ROOM 12", tt); ("", tt)] S))))
             32%float in
  let ins := [switching nat unit None (Some true) 0.5%float
                        (true, Some 1%nat) tt] in
  In (qrDet nat ["ROOM 12"])
     (trace nat unit unit unit
        (run nat unit unit unit (fun _ => "0.90") w true 0%float 0%float ins))
  /\ Forall (fun t => nonempty t = true) ["ROOM 12"].
Proof.
  intros w ins.
  assert (H : In (qrDet nat ["ROOM 12"])
                 (trace nat unit unit unit
                    (run nat unit unit unit (fun _ => "0.90") w true
                         0%float 0%float ins)))
    by (vm_compute; tauto).
  split; [exact H|].
  exact (qr_texts_not_empty nat unit unit unit (fun _ => "0.90")
                            w true 0%float 0%float ins _ H).
Defined.

Lemma first_frame_paced_witness :
  (0 <? 32)%float = true
  /\ exists w,
      init nat unit unit unit "http://192.168.4.1:81/stream" None None 32%float
      = Some w
      /\ neighbours (not_closer (1 / 32)%float)
           (0.5%float
              :: accepted_times nat unit unit unit
                   (steps_of nat unit unit unit
                      (run nat unit unit unit (fun _ => "0.90") w true
                           0.5%float 0.5%float
                           [quiet nat unit 0.515625%float
                                  (true, Some 1%nat) tt;
                            quiet nat unit 0.75%float
                                  (true, Some 2%nat) tt]))).
Proof.
  split; [reflexivity|].
  destruct (first_frame_paced nat unit unit unit (fun _ => "0.90")
              "http://192.168.4.1:81/stream" None None 32%float eq_refl)
    as (w & Hw & H).
  exists w; split; [exact Hw|apply H].
Defined.

Lemma fallback_texts_bounds_witness :
  let h := fixed_hazmat nat unit unit [1%Z; 7%Z] [tt] [tt; tt] None S in
  hazmat_labels nat unit unit h = None
  /\ (hazmat_texts nat unit unit (fun _ => "0.90") h [1%Z; 7%Z] [tt] = None
      <-> (1 < 2)%nat).
Proof.
  intros h; split; [reflexivity|].
  exact (proj1 (fallback_texts_bounds nat unit unit (fun _ => "0.90")
                                      h [1%Z; 7%Z] [tt] eq_refl)).
Defined.

Lemma constructed_stage_kept_witness :
  let h := broken_hazmat nat unit unit in
  let w := set_hazmat nat unit unit unit
             (constructed nat unit unit unit "http://192.168.4.1:81/stream"
                          (Some (fun _ => Raises)) None 32%float)
             (Some h) in
  hazmat nat unit unit unit w = Some h
  /\ Forall (fun s =>
               hazmat nat unit unit unit (step_worker nat unit unit unit s)
               = Some h
               /\ none nat (is_hazmat_factory_call nat)
                       (step_events nat unit unit unit s))
            (fst (fst (loop nat unit unit unit (fun _ => "0.90")
                            (started nat unit unit unit w true)
                            (first_locals 0%float 0%float)
                            [switching nat unit (Some true) None 0.5%float
                                       (true, Some 1%nat) tt;
                             switching nat unit (Some false) None 0.75%float
                                       (true, Some 2%nat) tt]))).
Proof.
  intros h w; split; [reflexivity|].
  exact (proj1 (constructed_stage_kept nat unit unit unit (fun _ => "0.90")
                  (started nat unit unit unit w true)
                  (first_locals 0%float 0%float) _) h eq_refl).
Defined.

Lemma factory_returning_none_is_retried_witness :
  let w := constructed nat unit unit unit "http://192.168.4.1:81/stream"
                       (Some (fun _ => Returns None)) None 32%float in
  let r := run nat unit unit unit (fun _ => "0.90") w true 0%float 0%float
               [switching nat unit (Some true) None 0.5%float
                          (true, Some 1%nat) tt;
                quiet nat unit 0.75%float (true, Some 2%nat) tt] in
  Forall (fun s =>
            hazmat_factory_returns_none nat unit unit unit s
            /\ count nat (is_hazmat_factory_call nat)
                     (step_events nat unit unit unit s) = 1%nat
            /\ _enable_hazmat nat unit unit unit
                 (step_worker nat unit unit unit s) = true)
         (steps_of nat unit unit unit r).
Proof.
  intros w r.
  pose proof (factory_returning_none_is_retried nat unit unit unit
                (fun _ => "0.90") w true 0%float 0%float
                [switching nat unit (Some true) None 0.5%float
                           (true, Some 1%nat) tt;
                 quiet nat unit 0.75%float (true, Some 2%nat) tt]) as H.
  fold r in H.
  assert (Hp : Forall (hazmat_factory_returns_none nat unit unit unit)
                      (steps_of nat unit unit unit r)).
  { repeat constructor; simpl; eexists; split; reflexivity. }
  revert H Hp; generalize (steps_of nat unit unit unit r).
  induction 1 as [|s steps [Hs _] _ IH]; intros Hp; [constructor|].
  inversion Hp as [|? ? Hps Hp']; subst.
  constructor; [|exact (IH Hp')].
  destruct (Hs Hps) as (_ & C & _ & F & _); auto.
Defined.

Lemma stages_compose_witness :
  let h := fixed_hazmat nat unit unit [0%Z] [tt] [tt] (Some ["acid"]) S in
  let q := fixed_qr nat unit [("ROOM 12", tt)] (Nat.mul 2) in
  let w := constructed nat unit unit unit "http://192.168.4.1:81/stream"
             (Some (fun _ => Returns (Some h)))
             (Some (fun _ => Returns (Some q))) 32%float in
  let r := run nat unit unit unit (fun _ => "0.90") w true 0%float 0%float
               [switching nat unit (Some true) (Some true) 0.5%float
                          (true, Some 10%nat) tt] in
  exists s,
    steps_of nat unit unit unit r = [s]
    /\ filter (is_detector_call nat) (step_events nat unit unit unit s)
       = [call_hazmat_detect nat 10%nat; call_hazmat_annotate nat 10%nat;
          call_qr_detect nat 11%nat; call_qr_annotate nat 11%nat]
    /\ exists ev ht,
        step_events nat unit unit unit s
        = ev ++ [hazmatDet nat ht; qrDet nat ["ROOM 12"];
                 frameReady nat 22%nat].
Proof.
  intros h q w r.
  pose proof (stages_compose nat unit unit unit (fun _ => "0.90")
                w true 0%float 0%float
                [switching nat unit (Some true) (Some true) 0.5%float
                           (true, Some 10%nat) tt]) as H.
  fold r in H.
  eexists.
  assert (Hs : steps_of nat unit unit unit r = [_]) by (lazy; reflexivity).
  split; [exact Hs|].
  rewrite Hs in H; apply Forall_inv in H.
  destruct (H 10%nat h q [0%Z] [tt] [tt] 11%nat [("ROOM 12", tt)] 22%nat
              10%nat 11%nat 11%nat 22%nat
              eq_refl eq_refl eq_refl eq_refl eq_refl eq_refl
              eq_refl eq_refl eq_refl eq_refl) as (Hc & ev & ht & Hev & _).
  split; [exact Hc|].
  exists ev, ht; exact Hev.
Defined.

End Camera.

(** ** The parameter-setting thread reports once *)

Module ParameterSetterFacts.
Import ParameterSetter.

Lemma run_interrupted_at_entry t e :
  (_interrupted t || interrupt_before e) = true ->
  snd (run t e) = [finished false].
Proof.
  unfold run, interrupt_if; intros H.
  destruct (is_empty (host t)); auto.
  destruct (interrupt_before e); simpl; auto.
  rewrite orb_false_r in H; now rewrite H.
Qed.

(** Claim C9.  Whatever the host, the interruptions and the outcome of
    [requests.get], a run emits [finished] exactly once.  The flag is tested
    before the call: a run interrupted by then emits [finished(False)] and
    makes no request.  It is tested again when the call has returned: a run
    interrupted during the call reports failure whatever the response.  A
    call that raises is reported as failure.  Success is reported only for
    a response with status 200 to a run that was never interrupted. *)
Theorem parameter_setter_reports_once (t : ParameterSetterThread) (e : Env) :
  exists ok,
    outcomes (snd (run t e)) = [ok]
    /\ ((_interrupted t || interrupt_before e) = true ->
        snd (run t e) = [finished false])
    /\ ((_interrupted t || interrupt_before e || interrupt_during e) = true ->
        ok = false)
    /\ (raises (get_outcome e) = true -> ok = false)
    /\ (ok = true ->
        get_outcome e = Response 200
        /\ (_interrupted t || interrupt_before e || interrupt_during e)
           = false
        /\ is_empty (host t) = false).
Proof.
  pose proof (run_interrupted_at_entry t e) as Hentry.
  unfold run, interrupt_if in *.
  destruct (is_empty (host t)).
  { exists false; repeat split; auto; discriminate. }
  destruct t as [h p to [|]], e as [[|] o [|]]; simpl in *;
    try (exists false; repeat split; auto; discriminate);
    destruct o as [code| |]; simpl;
      try (exists false; repeat split; auto; discriminate).
  exists (code =? 200)%Z; repeat split; auto; try discriminate.
  match goal with
  | Hok : (code =? 200)%Z = true |- _ => apply Z.eqb_eq in Hok; now subst
  end.
Qed.

Lemma request_sent_once' (t : ParameterSetterThread) (e : Env) :
  requests (snd (run t e))
  = if is_empty (host t) || _interrupted t || interrupt_before e then []
    else [("http://" ++ host t ++ "/set")%string].
Proof.
  unfold run, interrupt_if.
  destruct (is_empty (host t)); [reflexivity|].
  destruct t as [h p to [|]], e as [[|] o d]; simpl; try reflexivity.
  destruct o, d; reflexivity.
Qed.

(** A run makes at most one request: none when the host is empty or the
    thread was interrupted by the time it tests the flag, and otherwise one,
    to [http://<host>/set]. *)
Theorem request_sent_once (t : ParameterSetterThread) (e : Env) :
  requests (snd (run t e))
  = if is_empty (host t) || _interrupted t || interrupt_before e then []
    else [("http://" ++ host t ++ "/set")%string].
Proof. exact (request_sent_once' t e). Qed.

(** Success is reported exactly when the host is not empty, the thread was
    never interrupted and the response has status 200. *)
Theorem success_reported_iff (t : ParameterSetterThread) (e : Env) :
  outcomes (snd (run t e)) = [true]
  <-> is_empty (host t) = false
      /\ (_interrupted t || interrupt_before e || interrupt_during e) = false
      /\ get_outcome e = Response 200.
Proof.
  unfold run, interrupt_if.
  destruct (is_empty (host t)).
  { split; [discriminate|intros (H & _); discriminate]. }
  destruct t as [h p to [|]], e as [[|] o [|]]; simpl;
    try (split; [discriminate|intros (_ & H & _); discriminate]);
    destruct o as [code| |]; simpl;
      try (split; [discriminate|intros (_ & _ & H); discriminate]);
      try (split; [discriminate|intros (_ & H & _); discriminate]).
  split.
  - intros H; injection H as H; apply Z.eqb_eq in H; now subst.
  - intros (_ & _ & H); injection H as ->; reflexivity.
Qed.

(** A request answered with status 200 while the thread is being
    interrupted is reported as a failure. *)
Example interrupted_during_call :
  snd (run (init "192.168.4.1" None 3%float)
           {| interrupt_before := false; get_outcome := Response 200;
              interrupt_during := true |})
  = [requests_get "http://192.168.4.1/set"; finished false].
Proof. reflexivity. Qed.

End ParameterSetterFacts.

(** ** The host of a stream URL *)

Module UrlFacts.
Import Url.

Lemma append_empty_r s : (s ++ EmptyString)%string = s.
Proof. induction s as [|b s IH]; simpl; congruence. Qed.

Lemma occurs_append c s1 s2 :
  occurs c (s1 ++ s2)%string = occurs c s1 || occurs c s2.
Proof.
  induction s1 as [|b s1 IH]; simpl; auto.
  now rewrite IH, orb_assoc.
Qed.

(** Splitting at a character: the first part does not contain it. *)
Lemma first_part_free c s :
  occurs c (fst (split_once (String c EmptyString) s)) = false.
Proof.
  induction s as [|b s IH]; simpl; auto.
  destruct (Ascii.eqb c b) eqn:E; simpl; auto.
  destruct (split_once (String c EmptyString) s) as [before after]; simpl in *.
  now rewrite E, IH.
Qed.

(** The first part has no character that the text does not have. *)
Lemma first_part_occurs sep c s :
  occurs c s = false -> occurs c (fst (split_once sep s)) = false.
Proof.
  induction s as [|b s IH]; intros H.
  - simpl; destruct (strip_prefix sep EmptyString); reflexivity.
  - simpl in *. apply orb_false_iff in H as [H1 H2].
    destruct (strip_prefix sep (String b s)); simpl; auto.
    specialize (IH H2).
    destruct (split_once sep s) as [before after]; simpl in *.
    now rewrite H1, IH.
Qed.

(** A text without the character is not split. *)
Lemma split_once_absent c s :
  occurs c s = false -> split_once (String c EmptyString) s = (s, None).
Proof.
  induction s as [|b s IH]; simpl; auto; intros H.
  apply orb_false_iff in H as [H1 H2].
  rewrite H1, (IH H2); reflexivity.
Qed.

Lemma strip_prefix_absent c sep' s :
  occurs c s = false -> strip_prefix (String c sep') s = None.
Proof.
  destruct s as [|b s]; simpl; auto; intros H.
  apply orb_false_iff in H as [H1 _]; now rewrite H1.
Qed.

Lemma split_once_sep_absent c sep' s :
  occurs c s = false -> split_once (String c sep') s = (s, None).
Proof.
  induction s as [|b s IH]; intros H; [reflexivity|].
  cbn [split_once]; rewrite (strip_prefix_absent c sep' _ H).
  simpl in H; apply orb_false_iff in H as [_ H2].
  now rewrite (IH H2).
Qed.

Lemma strip_prefix_append p s : strip_prefix p (p ++ s)%string = Some s.
Proof.
  induction p as [|a p IH]; simpl; auto.
  now rewrite Ascii.eqb_refl.
Qed.

(** The first occurrence of a separator that starts with [c], after a text
    without [c], is the one right after that text. *)
Lemma split_once_at c sep' s1 s2 :
  occurs c s1 = false ->
  split_once (String c sep') (s1 ++ String c sep' ++ s2)%string
  = (s1, Some s2).
Proof.
  induction s1 as [|b s1 IH]; intros H.
  - change (EmptyString ++ String c sep' ++ s2)%string
      with (String c sep' ++ s2)%string.
    destruct (String c sep' ++ s2)%string eqn:E; [discriminate|].
    cbn [split_once]; rewrite <- E, strip_prefix_append; reflexivity.
  - simpl in H; apply orb_false_iff in H as [H1 H2].
    change (String b s1 ++ String c sep' ++ s2)%string
      with (String b (s1 ++ String c sep' ++ s2))%string.
    cbn [split_once strip_prefix]; rewrite H1, (IH H2); reflexivity.
Qed.

Lemma split_once_char_at c s1 s2 :
  occurs c s1 = false ->
  fst (split_once (String c EmptyString) (s1 ++ String c s2)%string) = s1.
Proof.
  intros H.
  change (String c s2) with (String c EmptyString ++ s2)%string.
  now rewrite (split_once_at c EmptyString s1 s2 H).
Qed.

(** Splitting at a character passes over a text that does not have it. *)
Lemma first_part_append c s1 s2 :
  occurs c s1 = false ->
  fst (split_once (String c EmptyString) (s1 ++ s2)%string)
  = (s1 ++ fst (split_once (String c EmptyString) s2))%string.
Proof.
  induction s1 as [|b s1 IH]; intros H; [reflexivity|].
  simpl in H; apply orb_false_iff in H as [H1 H2].
  change (String b s1 ++ s2)%string with (String b (s1 ++ s2))%string.
  cbn [split_once strip_prefix]; rewrite H1.
  specialize (IH H2).
  destruct (split_once (String c EmptyString) (s1 ++ s2)) as [before after].
  simpl in *; now rewrite IH.
Qed.

Lemma host_free url :
  occurs "/" (extract_host_from_stream_url url) = false
  /\ occurs ":" (extract_host_from_stream_url url) = false.
Proof.
  unfold extract_host_from_stream_url, first_part.
  destruct url as [|a url]; [split; reflexivity|].
  split.
  - apply first_part_occurs, first_part_free.
  - apply first_part_free.
Qed.

Lemma host_of_plain url :
  occurs "/" url = false -> occurs ":" url = false ->
  extract_host_from_stream_url url = url.
Proof.
  intros H1 H2; unfold extract_host_from_stream_url, first_part, last_part.
  destruct url as [|a url]; [reflexivity|].
  rewrite (split_once_sep_absent ":" "//" _ H2); cbn [snd fst].
  rewrite (split_once_absent "/" _ H1); cbn [fst].
  now rewrite (split_once_absent ":" _ H2).
Qed.

(** The host returned contains neither ['/'] nor [':'], whatever the
    URL. *)
Theorem host_has_no_separator url :
  occurs "/" (extract_host_from_stream_url url) = false
  /\ occurs ":" (extract_host_from_stream_url url) = false.
Proof. exact (host_free url). Qed.

(** The texts the function returns unchanged are exactly those without
    ['/'] and [':']: a bare host name or address (and the empty text). *)
Theorem host_fixed_points url :
  extract_host_from_stream_url url = url
  <-> occurs "/" url = false /\ occurs ":" url = false.
Proof.
  split.
  - intros E; rewrite <- E; apply host_free.
  - intros [H1 H2]; now apply host_of_plain.
Qed.

(** Extracting the host of a host gives the same host. *)
Theorem host_idempotent url :
  extract_host_from_stream_url (extract_host_from_stream_url url)
  = extract_host_from_stream_url url.
Proof.
  destruct (host_free url) as [H1 H2].
  now apply host_of_plain.
Qed.

Lemma host_of_parts scheme host rest :
  occurs ":" scheme = false ->
  occurs "/" host = false -> occurs ":" host = false ->
  host_ends rest ->
  extract_host_from_stream_url (scheme ++ "://" ++ host ++ rest)%string = host.
Proof.
  intros Hs H1 H2 Hr.
  unfold extract_host_from_stream_url, first_part, last_part.
  destruct (scheme ++ "://" ++ host ++ rest)%string eqn:E.
  - destruct scheme; discriminate.
  - rewrite <- E, (split_once_at ":" "//" scheme _ Hs); cbn [snd].
    rewrite (first_part_append "/" host rest H1).
    destruct Hr as [->|[[r ->]|[r ->]]].
    + simpl; rewrite (first_part_append ":" host EmptyString H2); simpl.
      apply append_empty_r.
    + cbn [split_once strip_prefix]; simpl Ascii.eqb; cbv iota.
      destruct (split_once "/" r) as [before after]; simpl fst.
      now apply split_once_char_at.
    + simpl; rewrite (first_part_append ":" host EmptyString H2); simpl.
      apply append_empty_r.
Qed.

(** From [scheme://host], [scheme://host:port...] or [scheme://host/path...]
    the function returns [host], for a scheme without [':'] and a host
    without ['/'] and [':']; what follows the host does not matter. *)
Theorem host_of_url scheme host rest :
  occurs ":" scheme = false ->
  occurs "/" host = false -> occurs ":" host = false ->
  host_ends rest ->
  extract_host_from_stream_url (scheme ++ "://" ++ host ++ rest)%string = host.
Proof. exact (host_of_parts scheme host rest). Qed.

(** The request of a [ParameterSetterThread] made for the host extracted
    from a stream URL goes to a URL whose host is that host. *)
Theorem request_goes_to_extracted_host url p tmo e u :
  In u (ParameterSetter.requests
          (snd (ParameterSetter.run
                  (ParameterSetter.init (extract_host_from_stream_url url)
                                        p tmo) e))) ->
  extract_host_from_stream_url u = extract_host_from_stream_url url.
Proof.
  rewrite ParameterSetterFacts.request_sent_once'.
  destruct (_ || _); [intros []|].
  intros [<-|[]]; cbn [ParameterSetter.host ParameterSetter.init].
  destruct (host_free url) as [H1 H2].
  apply (host_of_parts "http" _ "/set"); auto.
  right; right; eauto.
Qed.

Lemma host_of_url_witness :
  occurs ":" "http" = false
  /\ occurs "/" "192.168.4.1" = false /\ occurs ":" "192.168.4.1" = false
  /\ host_ends ":81/stream"
  /\ extract_host_from_stream_url "http://192.168.4.1:81/stream"
     = "192.168.4.1".
Proof.
  assert (He : host_ends ":81/stream") by (right; left; eauto).
  repeat (split; [reflexivity|]).
  split; [exact He|].
  exact (host_of_url "http" "192.168.4.1" ":81/stream"
                     eq_refl eq_refl eq_refl He).
Defined.

Lemma request_goes_to_extracted_host_witness :
  let e := {| ParameterSetter.interrupt_before := false;
              ParameterSetter.get_outcome := ParameterSetter.Response 200;
              ParameterSetter.interrupt_during := false |} in
  In "http://192.168.4.1/set"
     (ParameterSetter.requests
        (snd (ParameterSetter.run
                (ParameterSetter.init
                   (extract_host_from_stream_url
                      "http://192.168.4.1:81/stream") None 3%float) e)))
  /\ extract_host_from_stream_url "http://192.168.4.1/set"
     = extract_host_from_stream_url "http://192.168.4.1:81/stream".
Proof.
  intros e.
  assert (Hin : In "http://192.168.4.1/set"
                   (ParameterSetter.requests
                      (snd (ParameterSetter.run
                              (ParameterSetter.init
                                 (extract_host_from_stream_url
                                    "http://192.168.4.1:81/stream")
                                 None 3%float) e))))
    by (left; reflexivity).
  split; [exact Hin|].
  exact (request_goes_to_extracted_host "http://192.168.4.1:81/stream"
                                        None 3%float e _ Hin).
Defined.

End UrlFacts.
